(** * Input core of the emulator: mapping, polling and detection

    A shallow embedding of [src/input_core/input_core.cpp].  The C++ [float]
    is IEEE-754 binary32; it is modelled with the executable specification of
    floating-point arithmetic of the standard library ([spec_float]) at
    precision 24 and maximal exponent 128, rounding to nearest even.  The
    [std::map] members of [InputCore] are finite maps; the per-device
    snapshots handed to the tick are association lists in iteration order.
    A conversion of a [float] to an integer type that cannot hold its value
    is undefined in C++; a function that reaches one has no result
    ([None]). *)

From Stdlib Require Import ZArith Floats.SpecFloat.
From stdpp Require Import gmap strings list fin_maps.

Local Open Scope Z_scope.

(** ** Binary32 arithmetic *)

Module Float32.

Definition prec : Z := 24.
Definition emax : Z := 128.

Definition f32 : Type := spec_float.

(** Conversion of a C++ [int] to [float]. *)
Definition of_Z (z : Z) : f32 := binary_normalize prec emax z 0 false.

(** The [float] nearest to the ratio [n / d]; a decimal literal such as
    [0.1f] is [of_ratio 1 10]. *)
Definition of_ratio (n d : Z) : f32 := SFdiv prec emax (of_Z n) (of_Z d).

Definition zero : f32 := S754_zero false.
Definition one : f32 := of_Z 1.

Definition add : f32 -> f32 -> f32 := SFadd prec emax.
Definition sub : f32 -> f32 -> f32 := SFsub prec emax.
Definition mul : f32 -> f32 -> f32 := SFmul prec emax.
Definition div : f32 -> f32 -> f32 := SFdiv prec emax.
Definition sqrt : f32 -> f32 := SFsqrt prec emax.
Definition neg : f32 -> f32 := SFopp.

Definition eqb : f32 -> f32 -> bool := SFeqb.
Definition ltb : f32 -> f32 -> bool := SFltb.
Definition gtb (x y : f32) : bool := SFltb y x.
Definition geb (x y : f32) : bool := SFleb y x.

Definition is_zero (x : f32) : bool :=
  match x with S754_zero _ => true | _ => false end.

(** Conversion of a [float] to a signed 16-bit integer: the value is
    truncated toward zero; a value that does not fit (and an infinity or a
    NaN) has no defined result. *)
Definition to_s16 (x : f32) : option Z :=
  match x with
  | S754_zero _ => Some 0
  | S754_finite s m e =>
      let t := Z.shiftl (Zpos m) e in
      let v := if s then - t else t in
      if (-32768 <=? v) && (v <=? 32767) then Some v else None
  | _ => None
  end.

(** Conversion of a [float] to [int] (32 bits): the value is truncated toward
    zero; a value that does not fit (and an infinity or a NaN) has no defined
    result. *)
Definition to_int (x : f32) : option Z :=
  match x with
  | S754_zero _ => Some 0
  | S754_finite s m e =>
      let t := Z.shiftl (Zpos m) e in
      let v := if s then - t else t in
      if (- 2 ^ 31 <=? v) && (v <=? 2 ^ 31 - 1) then Some v else None
  | _ => None
  end.

#[global] Arguments of_Z : simpl never.
#[global] Arguments of_ratio : simpl never.
#[global] Arguments one : simpl never.
#[global] Arguments add : simpl never.
#[global] Arguments sub : simpl never.
#[global] Arguments mul : simpl never.
#[global] Arguments div : simpl never.
#[global] Arguments sqrt : simpl never.
#[global] Arguments neg : simpl never.
#[global] Arguments eqb : simpl never.
#[global] Arguments ltb : simpl never.
#[global] Arguments gtb : simpl never.
#[global] Arguments geb : simpl never.
#[global] Arguments to_s16 : simpl never.
#[global] Arguments to_int : simpl never.

End Float32.

Import Float32.

(** ** Deadzone normaliser *)

(** The local [magnitude] of [InputCore::ApplyDeadzone]. *)
Definition magnitude (x y : f32) : f32 := sqrt (add (mul x x) (mul y y)).

Definition ApplyDeadzone (x y dead_zone : f32) : f32 * f32 :=
  let magnitude := magnitude x y in
  if ltb magnitude dead_zone then
    (zero, zero)
  else
    let normalized_x := div x magnitude in
    let normalized_y := div y magnitude in
    let scale := div (sub magnitude dead_zone) (sub (of_Z 1) dead_zone) in
    (mul normalized_x scale, mul normalized_y scale).

#[global] Arguments magnitude : simpl never.
#[global] Arguments ApplyDeadzone : simpl never.

(** Whether a call takes the rescaling branch, the one with the divisions by
    [magnitude]. *)
Definition rescales (x y dead_zone : f32) : bool :=
  negb (ltb (magnitude x y) dead_zone).

(** ** Settings *)

Module Settings.

(** The enumerators the engine switches on in [GenerateUniqueDevices]. *)
Inductive DeviceFramework := SDL.
Inductive Device := Keyboard | Gamepad.

(** A physical input: the fields the engine reads are [framework],
    [number], [device] and [key]. *)
Record InputDeviceMapping := {
  framework : DeviceFramework;
  number : Z;
  device : Device;
  key : string;
}.

(** The part of [Settings::values] the engine reads. *)
Record Values := {
  input_mappings : list InputDeviceMapping;
  pad_circle_modifier : InputDeviceMapping;
  pad_circle_modifier_scale : f32;
  pad_circle_deadzone : f32;
}.

End Settings.

Import Settings.

#[global] Instance DeviceFramework_eq_dec : EqDecision DeviceFramework.
Proof. solve_decision. Defined.
#[global] Instance Device_eq_dec : EqDecision Device.
Proof. solve_decision. Defined.
#[global] Instance InputDeviceMapping_eq_dec : EqDecision InputDeviceMapping.
Proof. solve_decision. Defined.

Definition mapping_to_tuple (m : InputDeviceMapping) : Z * bool * string :=
  (number m, match device m with Keyboard => false | Gamepad => true end, key m).

Definition mapping_of_tuple (t : Z * bool * string) : InputDeviceMapping :=
  let '(n, d, k) := t in
  {| framework := SDL; number := n;
     device := if d then Gamepad else Keyboard; key := k |}.

#[global] Instance InputDeviceMapping_countable : Countable InputDeviceMapping.
Proof.
  apply (inj_countable' mapping_to_tuple mapping_of_tuple).
  by intros [[] n [] k].
Defined.

(** ** The virtual pad *)

(** [Service::HID::PadState]: a 32-bit field, compared and ordered by its
    [hex] value. *)
Record PadState := { hex : Z }.

#[global] Instance PadState_eq_dec : EqDecision PadState.
Proof. solve_decision. Defined.

#[global] Instance PadState_countable : Countable PadState.
Proof. apply (inj_countable' hex Build_PadState). by intros []. Defined.

Definition u32_not (a : Z) : Z := Z.lnot a mod 2 ^ 32.

(** [pad_state.hex &= ~emulator_input.hex] *)
Definition pad_clear (pad e : PadState) : PadState :=
  {| hex := Z.land (hex pad) (u32_not (hex e)) |}.

(** [pad_state.hex |= emulator_input.hex] *)
Definition pad_set (pad e : PadState) : PadState :=
  {| hex := Z.lor (hex pad) (hex e) |}.

(** ** Declarations of the headers

    The constants of [input_core.h], [key_map.h] and [hid.h] and the
    comparison operators of [Settings::InputDeviceMapping] are used by the
    engine but declared elsewhere; the engine is verified for any values of
    them. *)
Class Headers := {
  input_detect_threshold : f32;
  MAX_CIRCLEPAD_POS : Z;
  PAD_CIRCLE_UP : PadState;
  PAD_CIRCLE_DOWN : PadState;
  PAD_CIRCLE_LEFT : PadState;
  PAD_CIRCLE_RIGHT : PadState;
  analog_inputs : list PadState;
  mapping_targets : list PadState;
  (** [operator==] and [operator<] of [InputDeviceMapping] *)
  mapping_eq : InputDeviceMapping -> InputDeviceMapping -> bool;
  mapping_lt : InputDeviceMapping -> InputDeviceMapping -> bool;
  (** the default-constructed [InputDeviceMapping()] *)
  default_mapping : InputDeviceMapping;
}.

(** ** The engine state *)

Inductive DeviceClass := KeyboardDevice | SDLJoystickDevice.

(** A device handle, with the number [InitDevice] was given. *)
Record InputDevice := {
  dev_class : DeviceClass;
  dev_number : Z;
}.

Record InputCore := {
  devices : list InputDevice;
  main_keyboard : option InputDevice;
  key_mappings : gmap InputDeviceMapping (list PadState);
  keys_pressed : gmap PadState bool;
  pad_state : PadState;
  circle_pad : Z * Z;
}.

(** One device snapshot, [std::map<InputDeviceMapping, float>], in iteration
    order. *)
Abbreviation Snapshot := (list (InputDeviceMapping * f32)).

(** [key_mappings[k]]: [operator[]] inserts an empty vector for a key that
    is absent. *)
Definition key_mappings_at (k : InputDeviceMapping)
    (km : gmap InputDeviceMapping (list PadState))
    : list PadState * gmap InputDeviceMapping (list PadState) :=
  match km !! k with
  | Some v => (v, km)
  | None => ([], <[k := []]> km)
  end.

(** [m[k]] on a [std::map<_, bool>]: an absent key is inserted as [false]. *)
Definition flag_at `{Countable K} (k : K) (m : gmap K bool)
    : bool * gmap K bool :=
  match m !! k with
  | Some b => (b, m)
  | None => (false, <[k := false]> m)
  end.

(** A loop whose body may have no defined result: the loop has one when
    every iteration has. *)
Fixpoint fold_left_opt {A B : Type} (f : A -> B -> option A) (l : list B)
    (a : A) : option A :=
  match l with
  | [] => Some a
  | b :: l' =>
      match f a b with
      | Some a' => fold_left_opt f l' a'
      | None => None
      end
  end.

Section Engine.

Context `{HD : Headers}.

(** *** Tick update: analog pass *)

(** The locals [left_x], [left_y] and [circle_pad_modifier]. *)
Record Analog := {
  left_x : f32;
  left_y : f32;
  circle_pad_modifier : f32;
}.

Definition analog_target (strength : f32) (a : Analog)
    (emulator_input : PadState) : Analog :=
  if eqb strength zero then a
  else if decide (emulator_input = PAD_CIRCLE_UP) then
    {| left_x := left_x a; left_y := neg strength;
       circle_pad_modifier := circle_pad_modifier a |}
  else if decide (emulator_input = PAD_CIRCLE_DOWN) then
    {| left_x := left_x a; left_y := strength;
       circle_pad_modifier := circle_pad_modifier a |}
  else if decide (emulator_input = PAD_CIRCLE_LEFT) then
    {| left_x := neg strength; left_y := left_y a;
       circle_pad_modifier := circle_pad_modifier a |}
  else if decide (emulator_input = PAD_CIRCLE_RIGHT) then
    {| left_x := strength; left_y := left_y a;
       circle_pad_modifier := circle_pad_modifier a |}
  else a.

Definition analog_button (V : Values)
    (acc : Analog * gmap InputDeviceMapping (list PadState))
    (button_states : InputDeviceMapping * f32)
    : Analog * gmap InputDeviceMapping (list PadState) :=
  let '(a, km) := acc in
  let strength := button_states.2 in
  let '(emulator_inputs, km) := key_mappings_at button_states.1 km in
  let a := fold_left (analog_target strength) emulator_inputs a in
  let a :=
    if mapping_eq button_states.1 (pad_circle_modifier V) then
      {| left_x := left_x a; left_y := left_y a;
         circle_pad_modifier :=
           if gtb button_states.2 input_detect_threshold
           then pad_circle_modifier_scale V else one |}
    else a in
  (a, km).

Definition analog_pass (V : Values) (inputs : list Snapshot)
    (km : gmap InputDeviceMapping (list PadState))
    : Analog * gmap InputDeviceMapping (list PadState) :=
  fold_left (fun acc input_device => fold_left (analog_button V) input_device acc)
    inputs
    ({| left_x := zero; left_y := zero; circle_pad_modifier := one |}, km).

(** *** Tick update: normalise and assign *)

Definition set_circle_pad (V : Values) (a : Analog) : option (Z * Z) :=
  let deadzone := pad_circle_deadzone V in
  let left_stick := ApplyDeadzone (left_x a) (left_y a) deadzone in
  x ← to_s16 (mul (mul left_stick.1 (of_Z MAX_CIRCLEPAD_POS))
                  (circle_pad_modifier a));
  y ← to_s16 (mul (mul (mul left_stick.2 (of_Z MAX_CIRCLEPAD_POS)) (of_Z (-1)))
                  (circle_pad_modifier a));
  Some (x, y).

(** *** Tick update: digital pass *)

(** The pad bits, the pressed latch and the mapping table, as the digital
    pass updates them. *)
Record Digital := {
  d_pad : PadState;
  d_keys : gmap PadState bool;
  d_map : gmap InputDeviceMapping (list PadState);
}.

(** The value of [abs(strength)] in the two threshold tests.  The call is
    unqualified and its argument is a [float]: with the headers the file
    includes it is [int abs(int)] of the C library.  The strength is converted
    to [int], which truncates it toward zero and is undefined for a NaN, an
    infinity or a value out of the range of [int]; the absolute value is
    undefined for the least [int]; the result is converted back to [float]
    for the comparison with the threshold. *)
Definition abs_strength (strength : f32) : option f32 :=
  n ← to_int strength;
  if bool_decide (n = - 2 ^ 31) then None else Some (of_Z (Z.abs n)).

(** The two tests of the edge detector and their assignments, [a] being the
    value of [abs(strength)]; each [keys_pressed[...]] is evaluated only when
    the comparison before its [&&] holds. *)
Definition edge_latch (a : f32) (d : Digital) (emulator_input : PadState)
    : Digital :=
  let '(released, keys) :=
    if ltb a input_detect_threshold then
      let '(b, keys) := flag_at emulator_input (d_keys d) in
      (bool_decide (b = true), keys)
    else (false, d_keys d) in
  if released then
    {| d_pad := pad_clear (d_pad d) emulator_input;
       d_keys := <[emulator_input := false]> keys;
       d_map := d_map d |}
  else
    let '(pressed, keys) :=
      if geb a input_detect_threshold then
        let '(b, keys) := flag_at emulator_input keys in
        (bool_decide (b = false), keys)
      else (false, keys) in
    if pressed then
      {| d_pad := pad_set (d_pad d) emulator_input;
         d_keys := <[emulator_input := true]> keys;
         d_map := d_map d |}
    else
      {| d_pad := d_pad d; d_keys := keys; d_map := d_map d |}.

(** The edge detector, for one logical target: the body of the innermost
    loop of the digital pass.  An analog target is skipped before
    [abs(strength)] is evaluated; [None] when that value is undefined. *)
Definition edge_detect (strength : f32) (d : Digital)
    (emulator_input : PadState) : option Digital :=
  if bool_decide (emulator_input ∈ analog_inputs) then Some d
  else
    a ← abs_strength strength;
    Some (edge_latch a d emulator_input).

Definition digital_button (d : Digital)
    (button_states : InputDeviceMapping * f32) : option Digital :=
  let strength := button_states.2 in
  let '(emulator_inputs, km) := key_mappings_at button_states.1 (d_map d) in
  fold_left_opt (edge_detect strength) emulator_inputs
    {| d_pad := d_pad d; d_keys := d_keys d; d_map := km |}.

Definition digital_pass (inputs : list Snapshot) (d : Digital)
    : option Digital :=
  fold_left_opt
    (fun d input_device => fold_left_opt digital_button input_device d)
    inputs d.

(** *** Tick update *)

(** [InputCore::UpdateEmulatorInputs]; [None] when a circle-pad value does
    not fit its 16-bit slot, or when the digital pass converts to [int] a
    strength that has no such value. *)
Definition UpdateEmulatorInputs (V : Values) (inputs : list Snapshot)
    (c : InputCore) : option InputCore :=
  let '(a, km) := analog_pass V inputs (key_mappings c) in
  cp ← set_circle_pad V a;
  d ← digital_pass inputs
        {| d_pad := pad_state c; d_keys := keys_pressed c; d_map := km |};
  Some {| devices := devices c;
          main_keyboard := main_keyboard c;
          key_mappings := d_map d;
          keys_pressed := d_keys d;
          pad_state := d_pad d;
          circle_pad := cp |}.

(** *** Mapping table and device registry *)

Definition CheckIfMappingExists (unique_mapping : list InputDeviceMapping)
    (mapping_to_check : InputDeviceMapping) : bool :=
  existsb (fun mapping => mapping_eq mapping mapping_to_check) unique_mapping.

(** [std::set::insert]: the set is kept as the list of its elements in
    increasing order. *)
Fixpoint set_insert (x : InputDeviceMapping) (s : list InputDeviceMapping)
    : list InputDeviceMapping :=
  match s with
  | [] => [x]
  | y :: s' =>
      if mapping_lt x y then x :: s
      else if mapping_lt y x then y :: set_insert x s'
      else s
  end.

Definition GatherUniqueMappings (V : Values) : list InputDeviceMapping :=
  let unique_mappings :=
    fold_left
      (fun unique_mappings mapping =>
         if CheckIfMappingExists unique_mappings mapping then unique_mappings
         else set_insert mapping unique_mappings)
      (input_mappings V) [] in
  if CheckIfMappingExists unique_mappings (pad_circle_modifier V)
  then unique_mappings
  else set_insert (pad_circle_modifier V) unique_mappings.

(** The loop of [BuildKeyMapping], from index [i] on; [None] when
    [mapping_targets] has no element at an index. *)
Fixpoint BuildKeyMapping_from (i : nat) (keys : list InputDeviceMapping)
    (km : gmap InputDeviceMapping (list PadState))
    : option (gmap InputDeviceMapping (list PadState)) :=
  match keys with
  | [] => Some km
  | key :: keys' =>
      val ← mapping_targets !! i;
      BuildKeyMapping_from (S i) keys'
        (<[key := default [] (km !! key) ++ [val]]> km)
  end.

Definition BuildKeyMapping (V : Values)
    : option (gmap InputDeviceMapping (list PadState)) :=
  BuildKeyMapping_from 0 (input_mappings V) ∅.

(** The device a mapping needs: both enumerations are covered, so [input]
    is assigned in every iteration. *)
Definition make_device (mapping : InputDeviceMapping) : InputDevice :=
  match framework mapping with
  | SDL =>
      match device mapping with
      | Keyboard => {| dev_class := KeyboardDevice; dev_number := number mapping |}
      | Gamepad => {| dev_class := SDLJoystickDevice; dev_number := number mapping |}
      end
  end.

(** [GenerateUniqueDevices]: the new [devices] and [main_keyboard]. *)
Definition GenerateUniqueDevices (V : Values) (keyboard : option InputDevice)
    : list InputDevice * option InputDevice :=
  fold_left
    (fun '(devs, kb) mapping =>
       let input := make_device mapping in
       (devs ++ [input],
        match dev_class input with
        | KeyboardDevice => Some input
        | SDLJoystickDevice => kb
        end))
    (GatherUniqueMappings V) ([], keyboard).

Definition ParseSettings (V : Values) (c : InputCore) : option InputCore :=
  let '(devs, kb) := GenerateUniqueDevices V (main_keyboard c) in
  km ← BuildKeyMapping V;
  Some {| devices := devs;
          main_keyboard := kb;
          key_mappings := km;
          keys_pressed := keys_pressed c;
          pad_state := pad_state c;
          circle_pad := circle_pad c |}.

(** [InputCore::ReloadSettings] *)
Definition ReloadSettings (V : Values) (c : InputCore) : option InputCore :=
  if bool_decide (devices c = []) then Some c
  else
    ParseSettings V
      {| devices := [];
         main_keyboard := main_keyboard c;
         key_mappings := key_mappings c;
         keys_pressed := keys_pressed c;
         pad_state := pad_state c;
         circle_pad := circle_pad c |}.

(** *** Detection of the next input *)

(** [DetectInput] reads the devices and the clock, which are outside the
    engine; their answers are given to the model.  The baseline is one
    snapshot per device, taken after [Clear].  A round is what the
    environment supplies to one iteration of the loop: the elapsed
    milliseconds read after [update_gui], and what each device's
    [ProcessInput] answers when the iteration polls it. *)
Record Round := {
  elapsed : Z;
  polled : list Snapshot;
}.

(** The baseline: [current_input_states.emplace(...)] keeps the first
    entry of a key. *)
Definition baseline_sample (cur : gmap InputDeviceMapping bool)
    (i : InputDeviceMapping * f32) : gmap InputDeviceMapping bool :=
  match cur !! i.1 with
  | Some _ => cur
  | None => <[i.1 := gtb i.2 input_detect_threshold]> cur
  end.

Definition baseline_states (baseline : list Snapshot)
    : gmap InputDeviceMapping bool :=
  fold_left (fun cur current_state => fold_left baseline_sample current_state cur)
    baseline ∅.

(** The body of the innermost loop: [inl] is the returned input, [inr] the
    updated baseline. *)
Definition detect_sample (cur : gmap InputDeviceMapping bool)
    (i : InputDeviceMapping * f32)
    : InputDeviceMapping + gmap InputDeviceMapping bool :=
  let '(fresh, cur) :=
    if gtb i.2 input_detect_threshold then
      let '(b, cur) := flag_at i.1 cur in (bool_decide (b = false), cur)
    else (false, cur) in
  if fresh then inl i.1
  else
    let '(dropped, cur) :=
      if ltb i.2 input_detect_threshold then
        let '(b, cur) := flag_at i.1 cur in (bool_decide (b = true), cur)
      else (false, cur) in
    if dropped then inr (<[i.1 := false]> cur) else inr cur.

Fixpoint detect_samples (cur : gmap InputDeviceMapping bool)
    (inputs : Snapshot)
    : InputDeviceMapping + gmap InputDeviceMapping bool :=
  match inputs with
  | [] => inr cur
  | i :: inputs' =>
      match detect_sample cur i with
      | inl found => inl found
      | inr cur => detect_samples cur inputs'
      end
  end.

Fixpoint detect_devices (cur : gmap InputDeviceMapping bool)
    (snapshots : list Snapshot)
    : InputDeviceMapping + gmap InputDeviceMapping bool :=
  match snapshots with
  | [] => inr cur
  | inputs :: snapshots' =>
      match detect_samples cur inputs with
      | inl found => inl found
      | inr cur => detect_devices cur snapshots'
      end
  end.

(** The [while] loop; [None] when the rounds supplied end while the loop
    is still running. *)
Fixpoint detect_loop (max_time : Z) (input_device : InputDeviceMapping)
    (cur : gmap InputDeviceMapping bool) (rounds : list Round)
    : option InputDeviceMapping :=
  if negb (bool_decide (key input_device = EmptyString)) then Some input_device
  else
    match rounds with
    | [] => None
    | r :: rounds' =>
        if max_time <=? elapsed r then Some input_device
        else
          match detect_devices cur (polled r) with
          | inl found => Some found
          | inr cur => detect_loop max_time input_device cur rounds'
          end
    end.

(** [InputCore::DetectInput] *)
Definition DetectInput (max_time : Z) (baseline : list Snapshot)
    (rounds : list Round) : option InputDeviceMapping :=
  detect_loop max_time default_mapping (baseline_states baseline) rounds.

End Engine.

(** ** Predicates of the statements *)

(** A digital state with another mapping table. *)
Definition with_map (km : gmap InputDeviceMapping (list PadState))
    (d : Digital) : Digital :=
  {| d_pad := d_pad d; d_keys := d_keys d; d_map := km |}.

(** The targets [key_mappings[k]] yields. *)
Definition targets_of (km : gmap InputDeviceMapping (list PadState))
    (k : InputDeviceMapping) : list PadState := default [] (km !! k).

(** The runs of the edge detector a digital pass makes, in order: one for
    each sample and each target its input has in the mapping table. *)
Definition tick_steps (km : gmap InputDeviceMapping (list PadState))
    (inputs : list Snapshot) : list (f32 * PadState) :=
  flat_map (fun b => map (pair b.2) (targets_of km b.1)) (concat inputs).

(** One run of the edge detector. *)
Definition edge_step `{HD : Headers} (d : Digital) (st : f32 * PadState)
    : option Digital := edge_detect st.1 d st.2.

(** A sequence of runs of the edge detector. *)
Definition run_steps `{HD : Headers} (steps : list (f32 * PadState))
    (d : Digital) : option Digital := fold_left_opt edge_step steps d.

(** A run of the edge detector that has a defined result: its target is
    analog, or its strength has an absolute value as an [int]. *)
Definition defined_step `{HD : Headers} (st : f32 * PadState) : Prop :=
  st.2 ∈ analog_inputs \/ is_Some (abs_strength st.1).

(** The mapping table after the samples [bs] were looked up in it: each
    lookup of an absent input inserts an empty entry. *)
Definition touched (bs : Snapshot)
    (km : gmap InputDeviceMapping (list PadState))
    : gmap InputDeviceMapping (list PadState) :=
  fold_left (fun km b => (key_mappings_at b.1 km).2) bs km.

(** [n] consecutive digital passes over the same snapshots. *)
Fixpoint passes `{HD : Headers} (n : nat) (inputs : list Snapshot)
    (d : Digital) : option Digital :=
  match n with
  | O => Some d
  | S n' =>
      match digital_pass inputs d with
      | Some d' => passes n' inputs d'
      | None => None
      end
  end.

(** The value of [keys_pressed[e]]. *)
Definition pressed (keys : gmap PadState bool) (e : PadState) : bool :=
  default false (keys !! e).

(** The bits of the target [e] in the pad. *)
Definition pad_bits (pad e : PadState) : Z := Z.land (hex pad) (hex e).

(** How many of the runs change the bits of [e] in the pad. *)
Fixpoint pad_toggles `{HD : Headers} (e : PadState)
    (steps : list (f32 * PadState)) (d : Digital) : option nat :=
  match steps with
  | [] => Some 0%nat
  | st :: steps' =>
      match edge_step d st with
      | Some d' =>
          match pad_toggles e steps' d' with
          | Some n =>
              Some ((if bool_decide (pad_bits (d_pad d') e = pad_bits (d_pad d) e)
                     then 0 else 1) + n)%nat
          | None => None
          end
      | None => None
      end
  end.

(** The side of the threshold an absolute value is on: [Some true] when the
    edge detector presses at it, [Some false] when it releases, [None] when
    neither comparison holds. *)
Definition side `{HD : Headers} (a : f32) : option bool :=
  if ltb a input_detect_threshold then Some false
  else if geb a input_detect_threshold then Some true
  else None.

(** The latch of a target after a run of the edge detector at the absolute
    value [a], [p] being the latch before. *)
Definition latch_after `{HD : Headers} (a : f32) (p : bool) : bool :=
  match side a with
  | Some w => w
  | None => p
  end.

(** The transitions a target owes at the absolute value [a]: one when its
    latch is on the other side of the threshold, none otherwise. *)
Definition pending_flip `{HD : Headers} (a : f32) (d : Digital)
    (e : PadState) : nat :=
  if bool_decide (latch_after a (pressed (d_keys d) e) = pressed (d_keys d) e)
  then 0%nat else 1%nat.

(** A run of the edge detector in a pass that holds the target [e] at the
    strength [s]: the run is skipped (its target is analog), or it is
    defined and either it is a run for [e] at [s] or its target shares no
    bit with [e]. *)
Definition fixed_for `{HD : Headers} (e : PadState) (s : f32)
    (st : f32 * PadState) : Prop :=
  st.2 ∈ analog_inputs
  \/ (is_Some (abs_strength st.1)
      /\ ((st.2 = e /\ st.1 = s) \/ Z.land (hex e) (hex st.2) = 0)).

(** The pad agrees with the latch of [e]: the bits of [e] are all set when
    [e] is latched as pressed and all clear when it is not. *)
Definition agrees (d : Digital) (e : PadState) : Prop :=
  pad_bits (d_pad d) e = if pressed (d_keys d) e then hex e else 0.

(** The exact value of a finite [float], in units of 2^-149, the least
    positive [float]. *)
Definition units (x : f32) : option Z :=
  match x with
  | S754_zero _ => Some 0
  | S754_finite s m e => Some ((if s then -1 else 1) * Zpos m * 2 ^ (e + 149))
  | _ => None
  end.

(** The point ([x], [y]) is strictly inside the circle of radius
    [dead_zone], in exact arithmetic: [x^2 + y^2 < dead_zone^2] and
    [0 <= dead_zone]. *)
Definition inside_exactly (x y dead_zone : f32) : Prop :=
  match units x, units y, units dead_zone with
  | Some ux, Some uy, Some ud => 0 <= ud /\ ux * ux + uy * uy < ud * ud
  | _, _, _ => False
  end.

(** The samples the detection loop inspects, in order: those of the rounds
    that precede the first round whose elapsed time reaches [max_time]. *)
Fixpoint polled_stream (max_time : Z) (rounds : list Round) : Snapshot :=
  match rounds with
  | [] => []
  | r :: rounds' =>
      if max_time <=? elapsed r then []
      else concat (polled r) ++ polled_stream max_time rounds'
  end.

(** Whether the time-out is reached within the rounds. *)
Definition timed_out (max_time : Z) (rounds : list Round) : bool :=
  existsb (fun r => max_time <=? elapsed r) rounds.

(** No sample of the stream crosses the threshold relative to the baseline
    [base]: a sample above the threshold belongs to an input that was active
    at the baseline and that no earlier sample of the stream shows below the
    threshold. *)
Definition no_crossing `{HD : Headers} (base : gmap InputDeviceMapping bool)
    (stream : Snapshot) : Prop :=
  forall pre k s post,
    stream = pre ++ (k, s) :: post ->
    gtb s input_detect_threshold = true ->
    base !! k = Some true
    /\ forall s', (k, s') ∈ pre -> ltb s' input_detect_threshold = false.

(** ** Bounded checks *)

(** A bounded universal check over consecutive integers. *)
Fixpoint all_from (n : nat) (z : Z) (p : Z -> bool) : bool :=
  match n with
  | O => true
  | S n' => p z && all_from n' (z + 1) p
  end.

(** The three products the tick converts to 16 bits, for a full deflection
    and for a stick at rest, at full-scale constant [m]. *)
Definition full_scale_ok (m : Z) : bool :=
  bool_decide
    (to_s16 (mul (mul (mul (neg one) (of_Z m)) (of_Z (-1))) one) = Some m
     /\ to_s16 (mul (mul zero (of_Z m)) one) = Some 0
     /\ to_s16 (mul (mul (mul zero (of_Z m)) (of_Z (-1))) one) = Some 0).

#[global] Instance spec_float_eq_dec : EqDecision spec_float.
Proof. solve_decision. Defined.

(** ** A configuration

    The values the project's headers give to the declarations above, and a
    keyboard configuration with three keys; the concrete runs below use
    them. *)

(** The bits of [hid.h] the configuration uses. *)
Module HID.

Definition PAD_A : PadState := {| hex := Z.shiftl 1 0 |}.
Definition PAD_B : PadState := {| hex := Z.shiftl 1 1 |}.
Definition PAD_CIRCLE_RIGHT : PadState := {| hex := Z.shiftl 1 28 |}.
Definition PAD_CIRCLE_LEFT : PadState := {| hex := Z.shiftl 1 29 |}.
Definition PAD_CIRCLE_UP : PadState := {| hex := Z.shiftl 1 30 |}.
Definition PAD_CIRCLE_DOWN : PadState := {| hex := Z.shiftl 1 31 |}.

End HID.

Module Citra.

(** A lexicographic order on the fields. *)
Definition lt (a b : InputDeviceMapping) : bool :=
  match number a ?= number b with
  | Lt => true
  | Gt => false
  | Eq =>
      match device a, device b with
      | Keyboard, Gamepad => true
      | Gamepad, Keyboard => false
      | _, _ => String.ltb (key a) (key b)
      end
  end.

(** Two mappings are equal when they name the same device instance. *)
Definition same_device (a b : InputDeviceMapping) : bool :=
  bool_decide (device a = device b ∧ framework a = framework b
               ∧ number a = number b).

Definition headers : Headers := {|
  input_detect_threshold := of_ratio 45 100;
  MAX_CIRCLEPAD_POS := 0x9C;
  PAD_CIRCLE_UP := HID.PAD_CIRCLE_UP;
  PAD_CIRCLE_DOWN := HID.PAD_CIRCLE_DOWN;
  PAD_CIRCLE_LEFT := HID.PAD_CIRCLE_LEFT;
  PAD_CIRCLE_RIGHT := HID.PAD_CIRCLE_RIGHT;
  analog_inputs :=
    [HID.PAD_CIRCLE_UP; HID.PAD_CIRCLE_DOWN; HID.PAD_CIRCLE_LEFT;
     HID.PAD_CIRCLE_RIGHT];
  mapping_targets :=
    [HID.PAD_A; HID.PAD_B; HID.PAD_CIRCLE_UP; HID.PAD_CIRCLE_RIGHT];
  mapping_eq := same_device;
  mapping_lt := lt;
  default_mapping :=
    {| framework := SDL; number := 0; device := Keyboard; key := "" |};
|}.

Definition keyboard_key (k : string) : InputDeviceMapping :=
  {| framework := SDL; number := 0; device := Keyboard; key := k |}.

Definition KeyA : InputDeviceMapping := keyboard_key "65".
Definition KeyB : InputDeviceMapping := keyboard_key "66".
Definition KeyUp : InputDeviceMapping := keyboard_key "16777235".
Definition KeyRight : InputDeviceMapping := keyboard_key "16777236".

(** A button of the first gamepad. *)
Definition Button0 : InputDeviceMapping :=
  {| framework := SDL; number := 0; device := Gamepad; key := "0" |}.

(** [KeyA], [KeyB], [KeyUp] and [KeyRight] drive the targets of
    [mapping_targets] in this order. *)
Definition values : Values := {|
  input_mappings := [KeyA; KeyB; KeyUp; KeyRight];
  pad_circle_modifier := Button0;
  pad_circle_modifier_scale := of_ratio 1 2;
  pad_circle_deadzone := of_ratio 1 10;
|}.

Definition keyboard0 : InputDevice :=
  {| dev_class := KeyboardDevice; dev_number := 0 |}.
Definition joystick0 : InputDevice :=
  {| dev_class := SDLJoystickDevice; dev_number := 0 |}.

Definition table : gmap InputDeviceMapping (list PadState) :=
  {[ KeyA := [HID.PAD_A]; KeyB := [HID.PAD_B];
     KeyUp := [HID.PAD_CIRCLE_UP]; KeyRight := [HID.PAD_CIRCLE_RIGHT] ]}.

(** The engine after [Init] and one tick with [KeyA] held down. *)
Definition held : InputCore := {|
  devices := [keyboard0; joystick0];
  main_keyboard := Some keyboard0;
  key_mappings := table;
  keys_pressed := {[ HID.PAD_A := true ]};
  pad_state := HID.PAD_A;
  circle_pad := (0, 0);
|}.

(** An engine whose mapping table has the single entry [KeyUp -> Up]. *)
Definition up_only : InputCore := {|
  devices := [keyboard0];
  main_keyboard := Some keyboard0;
  key_mappings := {[ KeyUp := [HID.PAD_CIRCLE_UP] ]};
  keys_pressed := ∅;
  pad_state := {| hex := 0 |};
  circle_pad := (0, 0);
|}.

(** The engine before [Init]. *)
Definition fresh : InputCore := {|
  devices := [];
  main_keyboard := None;
  key_mappings := ∅;
  keys_pressed := ∅;
  pad_state := {| hex := 0 |};
  circle_pad := (0, 0);
|}.

(** A detection session: [KeyA] is held when the detection starts. *)
Definition baseline : list Snapshot := [[(KeyA, one); (KeyB, zero)]].

(** [KeyA] stays held, is released, and is pressed again. *)
Definition repress : list Round := [
  {| elapsed := 0; polled := [[(KeyA, one); (KeyB, zero)]] |};
  {| elapsed := 16; polled := [[(KeyA, zero); (KeyB, zero)]] |};
  {| elapsed := 33; polled := [[(KeyA, one); (KeyB, zero)]] |}
].


Definition late : Round :=
  {| elapsed := 50; polled := [[(KeyA, one); (KeyB, one)]] |}.

End Citra.

(** ** Lifecycle and accessors *)

(** [InputCore::Init]: the settings are parsed; registering and scheduling
    the tick event belongs to the scheduler. *)
Definition Init `{HD : Headers} (V : Values) (c : InputCore)
    : option InputCore :=
  ParseSettings V c.

(** [InputCore::Shutdown]: the device registry is emptied. *)
Definition Shutdown (c : InputCore) : InputCore :=
  {| devices := [];
     main_keyboard := main_keyboard c;
     key_mappings := key_mappings c;
     keys_pressed := keys_pressed c;
     pad_state := pad_state c;
     circle_pad := circle_pad c |}.

Definition GetPadState (c : InputCore) : PadState := pad_state c.

(** [InputCore::SetPadState]: [pad_state.hex = state.hex]. *)
Definition SetPadState (state : PadState) (c : InputCore) : InputCore :=
  {| devices := devices c;
     main_keyboard := main_keyboard c;
     key_mappings := key_mappings c;
     keys_pressed := keys_pressed c;
     pad_state := {| hex := hex state |};
     circle_pad := circle_pad c |}.

Definition GetCirclePad (c : InputCore) : Z * Z := circle_pad c.

(** The raw circle-pad vector of the analog pass. *)
Definition raw (a : Analog) : f32 * f32 := (left_x a, left_y a).

(** The samples of a snapshot whose strength does not compare equal to 0. *)
Definition moving (snap : Snapshot) : Snapshot :=
  filter (fun b => eqb b.2 zero = false) snap.

(** Two states of the analog pass with the same raw vector and the same
    targets for every input. *)
Definition raw_equiv
    (acc acc' : Analog * gmap InputDeviceMapping (list PadState)) : Prop :=
  raw acc.1 = raw acc'.1 /\ forall k, targets_of acc.2 k = targets_of acc'.2 k.

(** A value that fits the 32-bit field of [PadState]. *)
Definition u32 (a : Z) : Prop := 0 <= a < 2 ^ 32.

(** All bits of the target [e] are set in [pad]. *)
Definition bits_set (pad e : PadState) : Prop :=
  Z.land (hex pad) (hex e) = hex e.

(** The pad agrees with the latch of [e]: a target latched as pressed has
    its bits set. *)
Definition in_step (d : Digital) (e : PadState) : Prop :=
  pressed (d_keys d) e = true -> bits_set (d_pad d) e.

(** The mappings the settings configure: the input mappings and the
    modifier. *)
Definition configured (V : Values) (m : InputDeviceMapping) : Prop :=
  m ∈ input_mappings V \/ m = pad_circle_modifier V.

(** The targets configured for the input [k], in the order of the
    settings. *)
Definition configured_targets `{HD : Headers} (V : Values)
    (k : InputDeviceMapping) : list PadState :=
  (filter (fun p => p.1 = k) (zip (input_mappings V) mapping_targets)).*2.

(** ** More of the configuration *)

Module Sessions.

(** The settings of [Citra.values] with the deadzone set to 0. *)
Definition no_deadzone : Values := {|
  input_mappings := input_mappings Citra.values;
  pad_circle_modifier := pad_circle_modifier Citra.values;
  pad_circle_modifier_scale := pad_circle_modifier_scale Citra.values;
  pad_circle_deadzone := zero;
|}.

(** [KeyA] is held throughout; [KeyB] is pressed in the second round. *)
Definition press_b : list Round := [
  {| elapsed := 0; polled := [[(Citra.KeyA, one); (Citra.KeyB, zero)]] |};
  {| elapsed := 16; polled := [[(Citra.KeyA, one); (Citra.KeyB, one)]] |}
].

(** The pad and the latch with [PAD_A] pressed. *)
Definition a_pressed : Digital :=
  {| d_pad := HID.PAD_A; d_keys := {[ HID.PAD_A := true ]};
     d_map := Citra.table |}.

(** The pad and the latch with nothing pressed. *)
Definition idle : Digital :=
  {| d_pad := {| hex := 0 |}; d_keys := ∅; d_map := Citra.table |}.

(** [KeyA] is held at the baseline and released in the second round. *)
Definition release_a : list Round := [
  {| elapsed := 0; polled := [[(Citra.KeyA, one); (Citra.KeyB, zero)]] |};
  {| elapsed := 16; polled := [[(Citra.KeyA, zero); (Citra.KeyB, zero)]] |};
  {| elapsed := 33; polled := [[(Citra.KeyA, zero); (Citra.KeyB, zero)]] |}
].

(** A stick position and a deadzone of about 0.19: [12508825 * 2^-26],
    [11511625 * 2^-29] and [12591318 * 2^-26].  The position is inside the
    circle of that radius by less than the rounding of its magnitude. *)
Definition near_x : f32 := S754_finite false 12508825 (-26).
Definition near_y : f32 := S754_finite false 11511625 (-29).
Definition near_deadzone : f32 := S754_finite false 12591318 (-26).

End Sessions.

(** The pad, the latch and the mapping table of the engine, as the digital
    pass sees them. *)
Definition digital_of (c : InputCore) : Digital :=
  {| d_pad := pad_state c; d_keys := keys_pressed c;
     d_map := key_mappings c |}.

(** * Properties *)

(** ** Deadzone normaliser *)

Lemma ltb_zero_l (s : bool) (d : f32) :
  ltb zero d = true -> ltb (S754_zero s) d = true.
Proof. by destruct d. Qed.

Lemma rescales_magnitude_nonzero (x y dead_zone : f32) :
  gtb dead_zone zero = true ->
  rescales x y dead_zone = true ->
  is_zero (magnitude x y) = false.
Proof.
  unfold gtb, rescales. fold (ltb zero dead_zone). intros Hd Hr.
  destruct (magnitude x y) as [s| | |] eqn:Hm; try done.
  by rewrite (ltb_zero_l s dead_zone Hd) in Hr.
Qed.

(** The centre is inside every positive deadzone. *)
Lemma ApplyDeadzone_centre (sx sy : bool) (dead_zone : f32) :
  ltb zero dead_zone = true ->
  ApplyDeadzone (S754_zero sx) (S754_zero sy) dead_zone = (zero, zero).
Proof.
  intros Hd. unfold ApplyDeadzone.
  assert (exists s, magnitude (S754_zero sx) (S754_zero sy) = S754_zero s)
    as [s ->] by (destruct sx, sy; by eexists).
  by rewrite (ltb_zero_l s dead_zone Hd).
Qed.

(** C3, as the code has it.  The test is made on the magnitude the function
    computes in binary32, [sqrt (x * x + y * y)] with each operation
    rounded: whenever that magnitude compares below the deadzone, the
    result is exactly [(0, 0)], both components the positive zero; this
    holds for every deadzone, those of [[0, 1)] included. *)
Theorem ApplyDeadzone_inside (x y dead_zone : f32) :
  ltb (magnitude x y) dead_zone = true ->
  ApplyDeadzone x y dead_zone = (zero, zero).
Proof. unfold ApplyDeadzone. by intros ->. Qed.

Lemma ApplyDeadzone_inside_witness :
  ltb (magnitude (of_ratio 1 20) (of_ratio (-1) 20)) (of_ratio 1 10) = true
  /\ ApplyDeadzone (of_ratio 1 20) (of_ratio (-1) 20) (of_ratio 1 10)
     = (zero, zero).
Proof.
  split; [vm_compute; reflexivity|].
  apply ApplyDeadzone_inside. vm_compute. reflexivity.
Defined.

(** C3, as stated, fails: the three values are binary32 numbers, the
    position [(near_x, near_y)] is strictly inside the circle of radius
    [near_deadzone] in exact arithmetic, and the deadzone is in [[0, 1)];
    but the computed magnitude is rounded up to the
    float after the deadzone, the test fails, and the position is rescaled
    to a vector that is not [(0, 0)]. *)
Lemma ApplyDeadzone_rounded_out :
  valid_binary prec emax Sessions.near_x = true
  /\ valid_binary prec emax Sessions.near_y = true
  /\ valid_binary prec emax Sessions.near_deadzone = true
  /\ inside_exactly Sessions.near_x Sessions.near_y Sessions.near_deadzone
  /\ geb Sessions.near_deadzone zero = true
  /\ ltb Sessions.near_deadzone one = true
  /\ magnitude Sessions.near_x Sessions.near_y
     = S754_finite false 12591319 (-26)
  /\ ApplyDeadzone Sessions.near_x Sessions.near_y Sessions.near_deadzone
     = (S754_finite false 10258380 (-49), S754_finite false 9440585 (-52))
  /\ ApplyDeadzone Sessions.near_x Sessions.near_y Sessions.near_deadzone
     <> (zero, zero).
Proof.
  split; [vm_compute; reflexivity|]. split; [vm_compute; reflexivity|].
  split; [vm_compute; reflexivity|].
  split; [vm_compute; split; [discriminate|reflexivity]|].
  split; [vm_compute; reflexivity|]. split; [vm_compute; reflexivity|].
  split; [vm_compute; reflexivity|]. split; [vm_compute; reflexivity|].
  vm_compute. discriminate.
Qed.

(** C10.  With a positive deadzone a call that reaches the rescaling branch
    divides by a magnitude that is not zero; with deadzone [0] and input
    [(0, 0)] the branch is reached with magnitude [0], and both divisions
    are [0 / 0], a NaN that the result carries. *)
Theorem ApplyDeadzone_divisor :
  (forall x y dead_zone : f32,
     gtb dead_zone zero = true ->
     rescales x y dead_zone = true ->
     is_zero (magnitude x y) = false)
  /\ (rescales zero zero zero = true
      /\ is_zero (magnitude zero zero) = true
      /\ div zero (magnitude zero zero) = S754_nan
      /\ ApplyDeadzone zero zero zero = (S754_nan, S754_nan)).
Proof.
  split; [exact rescales_magnitude_nonzero|].
  repeat split; vm_compute; reflexivity.
Qed.

Lemma ApplyDeadzone_divisor_witness :
  gtb (of_ratio 1 10) zero = true
  /\ rescales one zero (of_ratio 1 10) = true
  /\ is_zero (magnitude one zero) = false.
Proof.
  split; [vm_compute; reflexivity|].
  split; [vm_compute; reflexivity|].
  apply (proj1 ApplyDeadzone_divisor one zero (of_ratio 1 10));
    vm_compute; reflexivity.
Defined.

(** ** Settings reload *)

Section Reload.

Context `{HD : Headers}.

Lemma BuildKeyMapping_from_total (keys : list InputDeviceMapping) :
  forall (i : nat) (km : gmap InputDeviceMapping (list PadState)),
    (i + length keys <= length mapping_targets)%nat ->
    is_Some (BuildKeyMapping_from i keys km).
Proof.
  induction keys as [|key keys IH]; intros i km Hlen; simpl in *.
  - by eexists.
  - destruct (lookup_lt_is_Some_2 mapping_targets i) as [val Hval]; [lia|].
    rewrite Hval. simpl. apply IH. lia.
Qed.

Lemma ParseSettings_frame (V : Values) (c c' : InputCore) :
  ParseSettings V c = Some c' ->
  keys_pressed c' = keys_pressed c /\ pad_state c' = pad_state c
  /\ circle_pad c' = circle_pad c.
Proof.
  unfold ParseSettings. destruct (GenerateUniqueDevices _ _) as [devs kb].
  destruct (BuildKeyMapping V) as [km|]; simpl; [|done].
  by intros [= <-].
Qed.

(** C8.  On an engine without a registered device [ReloadSettings] returns
    at once: the whole state (registry, mapping table, pressed latch, pad
    bits, circle-pad cache) is the one it was given. *)
Theorem ReloadSettings_no_devices (V : Values) (c : InputCore) :
  devices c = [] -> ReloadSettings V c = Some c.
Proof. intros Hd. unfold ReloadSettings. by rewrite bool_decide_eq_true_2. Qed.

(** C1, as the code has it.  A reload that finds a device rebuilds the
    registry and the mapping table and nothing else: it completes whenever
    [mapping_targets] covers the configured mappings, and the pressed latch
    and the pad bits are the ones from before the call. *)
Theorem ReloadSettings_keeps_latch (V : Values) (c : InputCore) :
  devices c <> [] ->
  (length (input_mappings V) <= length mapping_targets)%nat ->
  exists c', ReloadSettings V c = Some c'
    /\ keys_pressed c' = keys_pressed c
    /\ pad_state c' = pad_state c.
Proof.
  intros Hd Hlen. unfold ReloadSettings. rewrite bool_decide_eq_false_2; [|done].
  destruct (BuildKeyMapping_from_total (input_mappings V) 0 ∅ Hlen) as [km Hkm].
  match goal with |- context [ParseSettings V ?c0] =>
    destruct (ParseSettings V c0) as [c'|] eqn:Hp end.
  - exists c'. split; [done|].
    apply ParseSettings_frame in Hp as (Hk & Hs & _). by split.
  - unfold ParseSettings in Hp.
    destruct (GenerateUniqueDevices _ _) as [devs kb].
    unfold BuildKeyMapping in Hp. by rewrite Hkm in Hp.
Qed.

End Reload.

Lemma ReloadSettings_no_devices_witness :
  devices Citra.fresh = []
  /\ ReloadSettings (HD := Citra.headers) Citra.values Citra.fresh
     = Some Citra.fresh.
Proof.
  split; [reflexivity|].
  apply (ReloadSettings_no_devices (HD := Citra.headers)). reflexivity.
Defined.

Lemma ReloadSettings_keeps_latch_witness :
  exists c', ReloadSettings (HD := Citra.headers) Citra.values Citra.held = Some c'
    /\ keys_pressed c' = keys_pressed Citra.held
    /\ pad_state c' = pad_state Citra.held.
Proof.
  apply (ReloadSettings_keeps_latch (HD := Citra.headers)).
  - discriminate.
  - simpl. lia.
Defined.

(** The state [Citra.held] is the one [Init] and a tick with [KeyA] pressed
    produce. *)
Example held_reached :
  ParseSettings (HD := Citra.headers) Citra.values Citra.fresh
    ≫= UpdateEmulatorInputs (HD := Citra.headers) Citra.values
         [[(Citra.KeyA, one)]; []]
  = Some Citra.held.
Proof. vm_compute. reflexivity. Qed.

(** C1, as stated, fails: with [KeyA] latched as pressed, the reload leaves
    the latch of [PAD_A] set, so the pressed latch is not empty. *)
Lemma ReloadSettings_latch_not_reset :
  exists c', ReloadSettings (HD := Citra.headers) Citra.values Citra.held = Some c'
    /\ keys_pressed c' !! HID.PAD_A = Some true
    /\ keys_pressed c' <> ∅.
Proof.
  eexists. split; [vm_compute; reflexivity|].
  split; [vm_compute; reflexivity|].
  intros He. apply (f_equal (fun m => m !! HID.PAD_A)) in He.
  vm_compute in He. discriminate.
Qed.

(** ** Tick update *)

Lemma all_from_spec (p : Z -> bool) (n : nat) :
  forall z k, all_from n z p = true -> z <= k < z + Z.of_nat n -> p k = true.
Proof.
  induction n as [|n IH]; intros z k Hall Hk; [lia|].
  simpl in Hall. apply andb_prop in Hall as [Hz Hrest].
  destruct (decide (k = z)) as [->|Hne]; [done|].
  apply (IH (z + 1)); [done|lia].
Qed.

Lemma full_scale_checked : all_from (Z.to_nat 32768) 0 full_scale_ok = true.
Proof. vm_compute. reflexivity. Qed.

Lemma full_scale (m : Z) :
  0 <= m <= 32767 ->
  to_s16 (mul (mul (mul (neg one) (of_Z m)) (of_Z (-1))) one) = Some m
  /\ to_s16 (mul (mul zero (of_Z m)) one) = Some 0
  /\ to_s16 (mul (mul (mul zero (of_Z m)) (of_Z (-1))) one) = Some 0.
Proof.
  intros Hm.
  assert (full_scale_ok m = true) as Hok.
  { apply (all_from_spec _ _ 0 m full_scale_checked). lia. }
  by apply bool_decide_eq_true_1 in Hok.
Qed.

Section Tick.

Context `{HD : Headers}.

Implicit Types (km : gmap InputDeviceMapping (list PadState)).
Implicit Types (k : InputDeviceMapping) (e : PadState) (s : f32).

Lemma key_mappings_at_present k km l :
  km !! k = Some l -> key_mappings_at k km = (l, km).
Proof. unfold key_mappings_at. by intros ->. Qed.

Lemma key_mappings_at_lookup k k' km l :
  km !! k' = Some l -> (key_mappings_at k km).2 !! k' = Some l.
Proof.
  unfold key_mappings_at. intros Hl.
  destruct (km !! k) eqn:Hk; simpl; [done|].
  rewrite lookup_insert_ne; [done|]. intros ->. congruence.
Qed.

(** *** The digital pass as a sequence of runs of the edge detector *)

Lemma fold_left_opt_app {A B} (f : A -> B -> option A) (l1 l2 : list B) :
  forall a, fold_left_opt f (l1 ++ l2) a
            = fold_left_opt f l1 a ≫= fold_left_opt f l2.
Proof.
  induction l1 as [|b l1 IH]; intros a; simpl; [done|].
  destruct (f a b); simpl; [apply IH|done].
Qed.

Lemma with_map_same d : with_map (d_map d) d = d.
Proof. by destruct d. Qed.

Lemma with_map_with_map km km' d : with_map km (with_map km' d) = with_map km d.
Proof. done. Qed.

(** The edge detector never touches the mapping table, and never reads
    it. *)
Lemma edge_latch_map a d e : d_map (edge_latch a d e) = d_map d.
Proof.
  unfold edge_latch.
  repeat (case_bool_decide || case_match || simpl); done.
Qed.

Lemma edge_latch_with_map a d e km :
  edge_latch a (with_map km d) e = with_map km (edge_latch a d e).
Proof.
  unfold edge_latch, with_map. cbn [d_pad d_keys d_map].
  repeat (case_bool_decide || case_match || simpl); congruence.
Qed.

Lemma edge_detect_with_map s d e km :
  edge_detect s (with_map km d) e = with_map km <$> edge_detect s d e.
Proof.
  unfold edge_detect. case_bool_decide; [done|].
  destruct (abs_strength s) as [a|]; simpl; [|done].
  by rewrite edge_latch_with_map.
Qed.

Lemma edge_detect_map s d d' e :
  edge_detect s d e = Some d' -> d_map d' = d_map d.
Proof.
  unfold edge_detect. case_bool_decide; [by intros [= <-]|].
  destruct (abs_strength s) as [a|]; simpl; [|done].
  intros [= <-]. apply edge_latch_map.
Qed.

Lemma run_steps_with_map steps : forall d km,
  run_steps steps (with_map km d) = with_map km <$> run_steps steps d.
Proof.
  unfold run_steps.
  induction steps as [|st steps IH]; intros d km; simpl; [done|].
  unfold edge_step at 1 3. rewrite edge_detect_with_map.
  destruct (edge_detect st.1 d st.2); simpl; [apply IH|done].
Qed.

Lemma run_steps_app steps1 steps2 d :
  run_steps (steps1 ++ steps2) d = run_steps steps1 d ≫= run_steps steps2.
Proof. apply fold_left_opt_app. Qed.

Lemma run_steps_map steps : forall d r,
  run_steps steps d = Some r -> d_map r = d_map d.
Proof.
  unfold run_steps.
  induction steps as [|st steps IH]; intros d r; simpl; [by intros [= <-]|].
  destruct (edge_step d st) as [d'|] eqn:Hd; [|done].
  intros Hr. rewrite (IH _ _ Hr). by apply edge_detect_map in Hd.
Qed.

Lemma edge_steps_pair s (l : list PadState) : forall d,
  run_steps (map (pair s) l) d = fold_left_opt (edge_detect s) l d.
Proof.
  unfold run_steps.
  induction l as [|e l IH]; intros d; simpl; [done|].
  unfold edge_step at 1. simpl. destruct (edge_detect s d e); [apply IH|done].
Qed.

Lemma key_mappings_at_targets k km :
  (key_mappings_at k km).1 = targets_of km k
  /\ forall k', targets_of (key_mappings_at k km).2 k' = targets_of km k'.
Proof.
  unfold key_mappings_at, targets_of.
  destruct (km !! k) as [l|] eqn:Hk; simpl; [done|].
  split; [done|]. intros k'. destruct (decide (k' = k)) as [->|Hne].
  - by rewrite lookup_insert_eq, Hk.
  - by rewrite lookup_insert_ne.
Qed.

Lemma touched_targets (bs : Snapshot) : forall km k,
  targets_of (touched bs km) k = targets_of km k.
Proof.
  unfold touched.
  induction bs as [|b bs IH]; intros km k; simpl; [done|].
  rewrite IH. apply key_mappings_at_targets.
Qed.

Lemma touched_lookup (bs : Snapshot) k l : forall km,
  km !! k = Some l -> touched bs km !! k = Some l.
Proof.
  unfold touched.
  induction bs as [|b bs IH]; intros km Hl; simpl; [done|].
  apply IH. by apply key_mappings_at_lookup.
Qed.

Lemma touched_present (bs : Snapshot) (b : InputDeviceMapping * f32) :
  b ∈ bs -> forall km, is_Some (touched bs km !! b.1).
Proof.
  induction bs as [|b0 bs IH]; intros Hin km; [by apply elem_of_nil in Hin|].
  apply elem_of_cons in Hin as [->|Hin]; [|by apply IH].
  change (touched (b0 :: bs) km)
    with (touched bs (key_mappings_at b0.1 km).2).
  assert (is_Some ((key_mappings_at b0.1 km).2 !! b0.1)) as [l Hl].
  { unfold key_mappings_at. destruct (km !! b0.1) eqn:Hk; simpl.
    - by rewrite Hk.
    - by rewrite lookup_insert_eq. }
  rewrite (touched_lookup bs _ _ _ Hl). by eexists.
Qed.

Lemma touched_app (bs1 bs2 : Snapshot) km :
  touched (bs1 ++ bs2) km = touched bs2 (touched bs1 km).
Proof. unfold touched. apply fold_left_app. Qed.

Lemma steps_of_ext (bs : Snapshot) km km' :
  (forall k, targets_of km' k = targets_of km k) ->
  flat_map (fun b => map (pair b.2) (targets_of km' b.1)) bs
  = flat_map (fun b => map (pair b.2) (targets_of km b.1)) bs.
Proof.
  intros Hext. induction bs as [|b bs IH]; simpl; [done|].
  by rewrite IH, Hext.
Qed.

(** The samples of one snapshot: the pass runs the edge detector once for
    each sample and each of its targets, in order, and leaves the mapping
    table with the entries the lookups inserted. *)
Lemma digital_buttons_steps (bs : Snapshot) : forall d,
  fold_left_opt digital_button bs d
  = with_map (touched bs (d_map d))
      <$> run_steps
            (flat_map (fun b => map (pair b.2) (targets_of (d_map d) b.1)) bs) d.
Proof.
  induction bs as [|b bs IH]; intros d.
  { simpl. by rewrite with_map_same. }
  cbn [fold_left_opt flat_map]. rewrite run_steps_app.
  unfold digital_button at 1.
  destruct (key_mappings_at_targets b.1 (d_map d)) as [Hl Hext].
  destruct (key_mappings_at b.1 (d_map d)) as [l km1] eqn:Hk.
  cbn [fst snd] in Hl, Hext. subst l.
  change {| d_pad := d_pad d; d_keys := d_keys d; d_map := km1 |}
    with (with_map km1 d).
  rewrite <- edge_steps_pair, run_steps_with_map.
  change (touched (b :: bs) (d_map d))
    with (touched bs (key_mappings_at b.1 (d_map d)).2).
  rewrite Hk. cbn [snd].
  destruct (run_steps (map (pair b.2) (targets_of (d_map d) b.1)) d)
    as [d1|] eqn:Hd1; simpl; [|done].
  rewrite IH. cbn [d_map with_map].
  rewrite (steps_of_ext bs (d_map d) km1 Hext), run_steps_with_map.
  destruct (run_steps _ d1); simpl; [|done].
  by rewrite with_map_with_map.
Qed.

Lemma digital_pass_concat (inputs : list Snapshot) : forall d,
  digital_pass inputs d = fold_left_opt digital_button (concat inputs) d.
Proof.
  unfold digital_pass.
  induction inputs as [|snap inputs IH]; intros d; simpl; [done|].
  rewrite fold_left_opt_app.
  destruct (fold_left_opt digital_button snap d); simpl; [apply IH|done].
Qed.

Lemma digital_pass_steps (inputs : list Snapshot) d :
  digital_pass inputs d
  = with_map (touched (concat inputs) (d_map d))
      <$> run_steps (tick_steps (d_map d) inputs) d.
Proof. rewrite digital_pass_concat. apply digital_buttons_steps. Qed.

(** A run of the edge detector has a result exactly when its target is
    analog or its strength has an absolute value as an [int]; the state
    plays no part. *)
Lemma edge_step_defined d st : is_Some (edge_step d st) <-> defined_step st.
Proof.
  unfold edge_step, edge_detect, defined_step. case_bool_decide as Ha.
  - split; [by left|by eexists].
  - destruct (abs_strength st.1) as [a|]; simpl.
    + split; [by right; eexists|by eexists].
    + split; [by intros [? ?]|]. intros [?|[? ?]]; done.
Qed.

Lemma run_steps_defined steps : forall d,
  is_Some (run_steps steps d) <-> Forall defined_step steps.
Proof.
  unfold run_steps.
  induction steps as [|st steps IH]; intros d; simpl.
  { split; [constructor|by eexists]. }
  rewrite Forall_cons, <- (edge_step_defined d st).
  destruct (edge_step d st) as [d'|]; simpl.
  - rewrite IH. split; [by split; [eexists|]|by intros [_ ?]].
  - split; [by intros [? ?]|by intros [[? ?] _]].
Qed.

(** A property of the pad and the latch that every run with a property [Q]
    keeps is kept by a sequence of such runs. *)
Lemma run_steps_invariant (P : Digital -> Prop) (Q : f32 * PadState -> Prop) :
  (forall d st d', Q st -> P d -> edge_step d st = Some d' -> P d') ->
  forall steps d r,
    Forall Q steps -> P d -> run_steps steps d = Some r -> P r.
Proof.
  intros Hstep. unfold run_steps.
  induction steps as [|st steps IH]; intros d r HQ HP; simpl.
  { by intros [= <-]. }
  apply Forall_cons in HQ as [Hst HQ].
  destruct (edge_step d st) as [d'|] eqn:Hd; [|done].
  apply IH; [done|]. by apply (Hstep d st).
Qed.

Lemma elem_of_concat {A} (x : A) (ls : list (list A)) :
  x ∈ concat ls <-> exists l, l ∈ ls /\ x ∈ l.
Proof.
  rewrite list_elem_of_In, in_concat. split.
  - intros (l & Hl & Hx). exists l. by rewrite !list_elem_of_In.
  - intros (l & Hl & Hx). exists l. by rewrite <- !list_elem_of_In.
Qed.

(** A property of every sample and each of its targets is a property of
    every run of the pass. *)
Lemma tick_steps_Forall (P : f32 * PadState -> Prop) (inputs : list Snapshot)
    km :
  (forall snap b e, snap ∈ inputs -> b ∈ snap -> e ∈ targets_of km b.1 ->
     P (b.2, e)) ->
  Forall P (tick_steps km inputs).
Proof.
  intros HP. apply Forall_forall. intros st Hst. unfold tick_steps in Hst.
  apply list_elem_of_In, in_flat_map in Hst as (b & Hb & Hst).
  apply in_map_iff in Hst as (e & <- & He).
  apply list_elem_of_In, elem_of_concat in Hb as (snap & Hsnap & Hb).
  apply (HP snap b e); [done..|]. by apply list_elem_of_In.
Qed.

(** Entries of the mapping table survive the digital pass. *)
Lemma digital_pass_lookup (inputs : list Snapshot) k l d d' :
  digital_pass inputs d = Some d' ->
  d_map d !! k = Some l -> d_map d' !! k = Some l.
Proof.
  rewrite digital_pass_steps. intros Hd Hl.
  destruct (run_steps _ d) as [r|]; simpl in Hd; [|done].
  injection Hd as <-. cbn [d_map with_map]. by apply touched_lookup.
Qed.

(** The digital pass has a result when every sampled strength has an
    absolute value as an [int]. *)
Lemma digital_pass_defined (inputs : list Snapshot) d :
  (forall snap b, snap ∈ inputs -> b ∈ snap -> is_Some (abs_strength b.2)) ->
  is_Some (digital_pass inputs d).
Proof.
  intros Hs. rewrite digital_pass_steps.
  assert (is_Some (run_steps (tick_steps (d_map d) inputs) d)) as [r Hr].
  { apply run_steps_defined, tick_steps_Forall. intros snap b e Hsnap Hb _.
    right. by apply (Hs snap b). }
  rewrite Hr. by eexists.
Qed.

(** The analog pass of a tick with a single sample. *)
Lemma analog_pass_single (V : Values) k s km l :
  km !! k = Some l ->
  mapping_eq k (pad_circle_modifier V) = false ->
  analog_pass V [[(k, s)]] km
  = (fold_left (analog_target s) l
       {| left_x := zero; left_y := zero; circle_pad_modifier := one |}, km).
Proof.
  intros Hl Hm. unfold analog_pass. simpl.
  rewrite (key_mappings_at_present _ _ _ Hl). by rewrite Hm.
Qed.

Lemma UpdateEmulatorInputs_single (V : Values) k s (c : InputCore)
    (l : list PadState) (cp : Z * Z) :
  key_mappings c !! k = Some l ->
  mapping_eq k (pad_circle_modifier V) = false ->
  is_Some (abs_strength s) ->
  set_circle_pad V
    (fold_left (analog_target s) l
       {| left_x := zero; left_y := zero; circle_pad_modifier := one |})
  = Some cp ->
  exists c', UpdateEmulatorInputs V [[(k, s)]] c = Some c'
    /\ circle_pad c' = cp
    /\ key_mappings c' !! k = Some l.
Proof.
  intros Hl Hm Hs Hcp. unfold UpdateEmulatorInputs.
  rewrite (analog_pass_single V k s _ l Hl Hm), Hcp. simpl.
  match goal with |- context [digital_pass ?i ?d0] =>
    destruct (digital_pass_defined i d0) as [d Hd] end.
  { intros snap b Hsnap Hb.
    apply list_elem_of_singleton in Hsnap as ->.
    by apply list_elem_of_singleton in Hb as ->. }
  rewrite Hd. simpl.
  eexists. split; [reflexivity|]. cbn [circle_pad key_mappings].
  split; [done|]. by apply (digital_pass_lookup _ _ _ _ _ Hd).
Qed.

(** C2, as the code has it.  One input mapped to the circle-pad Up
    direction, deadzone [0.1], the input not being the modifier: a tick at
    strength [1.0] sets the cache to exactly [(0, MAX_CIRCLEPAD_POS)] (Up is
    the positive Y of the cache: the raw Y is [-strength] and the assignment
    negates it again), and a following tick at strength [0.0] sets it to
    [(0, 0)]. *)
Theorem circle_pad_up_then_rest (V : Values) k (c : InputCore) :
  0 <= MAX_CIRCLEPAD_POS <= 32767 ->
  pad_circle_deadzone V = of_ratio 1 10 ->
  mapping_eq k (pad_circle_modifier V) = false ->
  key_mappings c !! k = Some [PAD_CIRCLE_UP] ->
  exists c1 c2,
    UpdateEmulatorInputs V [[(k, one)]] c = Some c1
    /\ circle_pad c1 = (0, MAX_CIRCLEPAD_POS)
    /\ UpdateEmulatorInputs V [[(k, zero)]] c1 = Some c2
    /\ circle_pad c2 = (0, 0).
Proof.
  intros Hmax Hdz Hm Hl.
  destruct (full_scale _ Hmax) as (Hy1 & Hx & Hy0).
  destruct (UpdateEmulatorInputs_single V k one c [PAD_CIRCLE_UP]
              (0, MAX_CIRCLEPAD_POS) Hl Hm) as (c1 & Hc1 & Hcp1 & Hl1).
  { by eexists. }
  { cbn [fold_left]. unfold analog_target.
    change (eqb one zero) with false. cbn iota. rewrite decide_True by done.
    unfold set_circle_pad. cbn [left_x left_y circle_pad_modifier]. rewrite Hdz.
    change (ApplyDeadzone zero (neg one) (of_ratio 1 10)) with (zero, neg one).
    cbn [fst snd]. by rewrite Hx, Hy1. }
  destruct (UpdateEmulatorInputs_single V k zero c1 [PAD_CIRCLE_UP]
              (0, 0) Hl1 Hm) as (c2 & Hc2 & Hcp2 & _).
  { by eexists. }
  { cbn [fold_left]. unfold analog_target.
    change (eqb zero zero) with true. cbn iota.
    unfold set_circle_pad. cbn [left_x left_y circle_pad_modifier]. rewrite Hdz.
    change (ApplyDeadzone zero zero (of_ratio 1 10)) with (zero, zero).
    cbn [fst snd]. by rewrite Hx, Hy0. }
  by exists c1, c2.
Qed.

Lemma analog_target_right s (a : Analog) :
  eqb s zero = false ->
  PAD_CIRCLE_RIGHT <> PAD_CIRCLE_UP ->
  PAD_CIRCLE_RIGHT <> PAD_CIRCLE_DOWN ->
  PAD_CIRCLE_RIGHT <> PAD_CIRCLE_LEFT ->
  left_x (analog_target s a PAD_CIRCLE_RIGHT) = s.
Proof.
  intros Hs Hu Hd Hl. unfold analog_target. rewrite Hs.
  rewrite !decide_False by done. by rewrite decide_True.
Qed.

Lemma analog_button_lookup (V : Values) acc (b : InputDeviceMapping * f32) k l :
  acc.2 !! k = Some l -> (analog_button V acc b).2 !! k = Some l.
Proof.
  destruct acc as [a km]. unfold analog_button. intros Hl.
  pose proof (key_mappings_at_lookup b.1 k km l Hl) as Hl'.
  by destruct (key_mappings_at b.1 km) as [l' km'].
Qed.

Lemma analog_buttons_lookup (V : Values) (snap : Snapshot) k l :
  forall acc, acc.2 !! k = Some l ->
    (fold_left (analog_button V) snap acc).2 !! k = Some l.
Proof.
  induction snap as [|b snap IH]; intros acc Hl; simpl; [done|].
  apply IH. by apply analog_button_lookup.
Qed.

Lemma analog_snapshots_lookup (V : Values) (inputs : list Snapshot) k l :
  forall acc, acc.2 !! k = Some l ->
    (fold_left (fun acc snap => fold_left (analog_button V) snap acc)
       inputs acc).2 !! k = Some l.
Proof.
  induction inputs as [|snap inputs IH]; intros acc Hl; simpl; [done|].
  apply IH. by apply analog_buttons_lookup.
Qed.

Lemma analog_button_right (V : Values) acc k s :
  acc.2 !! k = Some [PAD_CIRCLE_RIGHT] ->
  eqb s zero = false ->
  PAD_CIRCLE_RIGHT <> PAD_CIRCLE_UP ->
  PAD_CIRCLE_RIGHT <> PAD_CIRCLE_DOWN ->
  PAD_CIRCLE_RIGHT <> PAD_CIRCLE_LEFT ->
  left_x (analog_button V acc (k, s)).1 = s.
Proof.
  destruct acc as [a km]. intros Hl Hs Hu Hd Hle. unfold analog_button.
  cbn [fst snd] in *. rewrite (key_mappings_at_present _ _ _ Hl).
  cbn [fold_left]. destruct (mapping_eq _ _); cbn [fst left_x];
    by apply analog_target_right.
Qed.

(** Last write wins: whatever was sampled before, the raw X of a tick is
    the strength of the last sample when that sample is mapped to Right and
    its strength is not zero. *)
Lemma analog_pass_last_right (V : Values) (pre : list Snapshot)
    (snap : Snapshot) k s km :
  km !! k = Some [PAD_CIRCLE_RIGHT] ->
  eqb s zero = false ->
  PAD_CIRCLE_RIGHT <> PAD_CIRCLE_UP ->
  PAD_CIRCLE_RIGHT <> PAD_CIRCLE_DOWN ->
  PAD_CIRCLE_RIGHT <> PAD_CIRCLE_LEFT ->
  left_x (analog_pass V (pre ++ [snap ++ [(k, s)]]) km).1 = s.
Proof.
  intros Hl Hs Hu Hd Hle. unfold analog_pass.
  rewrite fold_left_app. cbn [fold_left]. rewrite fold_left_app.
  cbn [fold_left]. apply analog_button_right; try done.
  by apply analog_buttons_lookup, analog_snapshots_lookup.
Qed.

(** C5.  Two sources mapped to Right that report [0.3] and then [0.9] in one
    tick, in one snapshot or in two consecutive ones: the raw X handed to
    the deadzone normaliser is [0.9], which is not the sum [0.3 + 0.9]. *)
Theorem analog_last_write_wins (V : Values) k1 k2 km :
  PAD_CIRCLE_RIGHT <> PAD_CIRCLE_UP ->
  PAD_CIRCLE_RIGHT <> PAD_CIRCLE_DOWN ->
  PAD_CIRCLE_RIGHT <> PAD_CIRCLE_LEFT ->
  km !! k1 = Some [PAD_CIRCLE_RIGHT] ->
  km !! k2 = Some [PAD_CIRCLE_RIGHT] ->
  left_x (analog_pass V [[(k1, of_ratio 3 10); (k2, of_ratio 9 10)]] km).1
    = of_ratio 9 10
  /\ left_x (analog_pass V [[(k1, of_ratio 3 10)]; [(k2, of_ratio 9 10)]] km).1
    = of_ratio 9 10
  /\ of_ratio 9 10 <> add (of_ratio 3 10) (of_ratio 9 10).
Proof.
  intros Hu Hd Hle Hk1 Hk2. split; [|split].
  - by apply (analog_pass_last_right V [] [(k1, of_ratio 3 10)] k2).
  - by apply (analog_pass_last_right V [[(k1, of_ratio 3 10)]] [] k2).
  - vm_compute. discriminate.
Qed.

End Tick.

Lemma circle_pad_up_then_rest_witness :
  exists c1 c2,
    UpdateEmulatorInputs (HD := Citra.headers) Citra.values
      [[(Citra.KeyUp, one)]] Citra.up_only = Some c1
    /\ circle_pad c1 = (0, 156)
    /\ UpdateEmulatorInputs (HD := Citra.headers) Citra.values
         [[(Citra.KeyUp, zero)]] c1 = Some c2
    /\ circle_pad c2 = (0, 0).
Proof.
  apply (circle_pad_up_then_rest (HD := Citra.headers) Citra.values
           Citra.KeyUp Citra.up_only).
  - simpl. lia.
  - reflexivity.
  - vm_compute. reflexivity.
  - vm_compute. reflexivity.
Defined.

(** C2, as stated, fails: with the single mapping [KeyUp -> Up], deadzone
    [0.1] and the modifier on another device, the tick at strength [1.0]
    leaves [(0, 156)] in the cache, at distance [312] from the
    [(0, -156)] of the claim. *)
Lemma circle_pad_up_not_negative :
  exists c1,
    UpdateEmulatorInputs (HD := Citra.headers) Citra.values
      [[(Citra.KeyUp, one)]] Citra.up_only = Some c1
    /\ circle_pad c1 = (0, 156)
    /\ (circle_pad c1).2 - (- MAX_CIRCLEPAD_POS (Headers := Citra.headers)) = 312.
Proof.
  eexists. split; [vm_compute; reflexivity|].
  split; vm_compute; reflexivity.
Qed.

Lemma analog_last_write_wins_witness :
  left_x (analog_pass (HD := Citra.headers) Citra.values
            [[(Citra.KeyRight, of_ratio 3 10); (Citra.Button0, of_ratio 9 10)]]
            (<[Citra.Button0 := [HID.PAD_CIRCLE_RIGHT]]> Citra.table)).1
    = of_ratio 9 10
  /\ left_x (analog_pass (HD := Citra.headers) Citra.values
            [[(Citra.KeyRight, of_ratio 3 10)]; [(Citra.Button0, of_ratio 9 10)]]
            (<[Citra.Button0 := [HID.PAD_CIRCLE_RIGHT]]> Citra.table)).1
    = of_ratio 9 10
  /\ of_ratio 9 10 <> add (of_ratio 3 10) (of_ratio 9 10).
Proof.
  apply (analog_last_write_wins (HD := Citra.headers)); try discriminate;
    vm_compute; reflexivity.
Defined.

(** ** Edge detector *)

Lemma SFcompare_antisym (a b : f32) :
  SFcompare b a = CompOpp <$> SFcompare a b.
Proof.
  destruct a as [sa|sa| |sa ma ea], b as [sb|sb| |sb mb eb]; simpl; try done;
    repeat match goal with x : bool |- _ => destruct x end; simpl; try done;
    rewrite (Z.compare_antisym ea eb); destruct (ea ?= eb); simpl; try done;
    rewrite (Pos.compare_cont_antisym); simpl; by rewrite ?CompOpp_involutive.
Qed.

(** A value below the threshold is not also at or above it. *)
Lemma ltb_not_geb (a b : f32) : ltb a b = true -> geb a b = false.
Proof.
  unfold ltb, geb, SFltb, SFleb. rewrite (SFcompare_antisym a b).
  by destruct (SFcompare a b) as [[]|].
Qed.

Lemma geb_not_ltb (a b : f32) : geb a b = true -> ltb a b = false.
Proof.
  intros Hge. destruct (ltb a b) eqn:Hlt; [|done].
  by rewrite (ltb_not_geb _ _ Hlt) in Hge.
Qed.

Lemma pressed_insert (keys : gmap PadState bool) (e e' : PadState) (v : bool) :
  pressed (<[e' := v]> keys) e = if decide (e' = e) then v else pressed keys e.
Proof.
  unfold pressed. case_decide as Heq.
  - subst. by rewrite lookup_insert_eq.
  - by rewrite lookup_insert_ne.
Qed.

Lemma u32_mod (a : Z) : u32 a <-> a mod 2 ^ 32 = a.
Proof. unfold u32. rewrite Z.mod_small_iff by lia. lia. Qed.

Lemma u32_high_bits (a : Z) (n : Z) :
  u32 a -> 32 <= n -> Z.testbit a n = false.
Proof.
  intros Ha Hn. apply u32_mod in Ha. rewrite <- Ha.
  apply Z.mod_pow2_bits_high. lia.
Qed.

Lemma u32_not_bits (a : Z) (n : Z) :
  0 <= n ->
  Z.testbit (u32_not a) n = (n <? 32) && negb (Z.testbit a n).
Proof.
  intros Hn. unfold u32_not. destruct (n <? 32) eqn:Hlt; simpl.
  - apply Z.ltb_lt in Hlt. rewrite Z.mod_pow2_bits_low by lia.
    by rewrite Z.lnot_spec.
  - apply Z.ltb_ge in Hlt. apply Z.mod_pow2_bits_high. lia.
Qed.

(** The bits of a target in the pad, after the two assignments of the edge
    detector. *)
Lemma pad_bits_set_same (pad e : PadState) : pad_bits (pad_set pad e) e = hex e.
Proof.
  unfold pad_bits. simpl. apply Z.bits_inj'. intros n Hn.
  rewrite Z.land_spec, Z.lor_spec.
  by destruct (Z.testbit (hex pad) n), (Z.testbit (hex e) n).
Qed.

Lemma pad_bits_clear_same (pad e : PadState) : pad_bits (pad_clear pad e) e = 0.
Proof.
  unfold pad_bits. simpl. apply Z.bits_inj'. intros n Hn.
  rewrite !Z.land_spec, u32_not_bits, Z.bits_0 by done.
  by destruct (Z.testbit (hex pad) n), (n <? 32), (Z.testbit (hex e) n).
Qed.

Lemma pad_bits_set_other (pad e e' : PadState) :
  Z.land (hex e) (hex e') = 0 ->
  pad_bits (pad_set pad e') e = pad_bits pad e.
Proof.
  unfold pad_bits. simpl. intros Hdis. apply Z.bits_inj'. intros n Hn.
  apply (f_equal (fun z => Z.testbit z n)) in Hdis.
  rewrite Z.land_spec, Z.bits_0 in Hdis. rewrite !Z.land_spec, Z.lor_spec.
  destruct (Z.testbit (hex pad) n), (Z.testbit (hex e) n),
    (Z.testbit (hex e') n); simpl in *; congruence.
Qed.

Lemma pad_bits_clear_other (pad e e' : PadState) :
  u32 (hex e) -> Z.land (hex e) (hex e') = 0 ->
  pad_bits (pad_clear pad e') e = pad_bits pad e.
Proof.
  unfold pad_bits. simpl. intros He Hdis. apply Z.bits_inj'. intros n Hn.
  apply (f_equal (fun z => Z.testbit z n)) in Hdis.
  rewrite Z.land_spec, Z.bits_0 in Hdis.
  rewrite !Z.land_spec, u32_not_bits by done.
  destruct (Z.lt_ge_cases n 32) as [Hlt|Hge].
  - assert ((n <? 32) = true) as -> by (apply Z.ltb_lt; lia).
    destruct (Z.testbit (hex pad) n), (Z.testbit (hex e) n),
      (Z.testbit (hex e') n); simpl in *; congruence.
  - rewrite (u32_high_bits _ n He Hge). by rewrite !andb_false_r.
Qed.

Lemma Forall_concat_replicate {A} (P : A -> Prop) (n : nat) (l : list A) :
  Forall P l -> Forall P (concat (replicate n l)).
Proof.
  intros Hl. induction n as [|n IH]; simpl; [constructor|].
  by apply Forall_app.
Qed.

Section EdgeDetector.

Context `{HD : Headers}.

Implicit Types (e : PadState) (s a : f32) (d : Digital).
Implicit Types (b : InputDeviceMapping * f32).
Implicit Types (st : f32 * PadState) (steps : list (f32 * PadState)).

(** What the two tests do, [a] being the value of [abs(strength)]: nothing
    to the pad and to the values of the latch, or a release (the value is
    below the threshold and the target latched as pressed), or a press (the
    value is at or above the threshold and the target not latched as
    pressed). *)
Lemma edge_latch_cases a d e :
  (d_pad (edge_latch a d e) = d_pad d
   /\ latch_after a (pressed (d_keys d) e) = pressed (d_keys d) e
   /\ forall e0, pressed (d_keys (edge_latch a d e)) e0 = pressed (d_keys d) e0)
  \/ (ltb a input_detect_threshold = true
      /\ pressed (d_keys d) e = true
      /\ d_pad (edge_latch a d e) = pad_clear (d_pad d) e
      /\ d_keys (edge_latch a d e) = <[e := false]> (d_keys d))
  \/ (geb a input_detect_threshold = true
      /\ ltb a input_detect_threshold = false
      /\ pressed (d_keys d) e = false
      /\ d_pad (edge_latch a d e) = pad_set (d_pad d) e
      /\ d_keys (edge_latch a d e) = <[e := true]> (d_keys d)).
Proof.
  destruct d as [pad keys km].
  unfold edge_latch, flag_at, latch_after, side, pressed. simpl.
  destruct (ltb a input_detect_threshold) eqn:Hlt.
  - rewrite (ltb_not_geb _ _ Hlt).
    destruct (keys !! e) as [[]|] eqn:Hk; simpl.
    + right. left. by rewrite ?Hk.
    + left. by rewrite ?Hk.
    + left. split; [done|]. split; [done|]. intros e0.
      destruct (decide (e = e0)) as [<-|Hne].
      * by rewrite lookup_insert_eq, ?Hk.
      * by rewrite lookup_insert_ne.
  - destruct (geb a input_detect_threshold) eqn:Hge; [|by left].
    destruct (keys !! e) as [[]|] eqn:Hk; simpl.
    + left. by rewrite ?Hk.
    + right. right. by rewrite ?Hk.
    + right. right. by rewrite ?Hk, insert_insert_eq.
Qed.

(** After the two tests the latch of the target is on the side of the
    threshold the value is on; no other latch changes. *)
Lemma edge_latch_pressed a d e e0 :
  pressed (d_keys (edge_latch a d e)) e0
  = if decide (e = e0) then latch_after a (pressed (d_keys d) e)
    else pressed (d_keys d) e0.
Proof.
  destruct (edge_latch_cases a d e)
    as [(_ & Hl & Hkeys)|[(Hlt & Hp & _ & Hkeys)|(Hge & Hlt & Hp & _ & Hkeys)]].
  - rewrite Hkeys. case_decide as Heq; [|done]. subst e0. by rewrite Hl.
  - rewrite Hkeys, pressed_insert. case_decide; [|done].
    unfold latch_after, side. by rewrite Hlt.
  - rewrite Hkeys, pressed_insert. case_decide; [|done].
    unfold latch_after, side. by rewrite Hlt, Hge.
Qed.

Lemma pending_flip_le a d e : (pending_flip a d e <= 1)%nat.
Proof. unfold pending_flip. case_bool_decide; lia. Qed.

Lemma latch_after_idem a p : latch_after a (latch_after a p) = latch_after a p.
Proof. unfold latch_after. by destruct (side a). Qed.

(** A run for another target, one that shares no bit with [e], leaves the
    bits and the latch of [e] alone. *)
Lemma edge_step_other e s d st :
  u32 (hex e) -> st.2 <> e -> fixed_for e s st ->
  exists d', edge_step d st = Some d'
    /\ pad_bits (d_pad d') e = pad_bits (d_pad d) e
    /\ pressed (d_keys d') e = pressed (d_keys d) e.
Proof.
  intros He Hne Hfix. unfold edge_step, edge_detect.
  destruct Hfix as [Ha|[[a' Ha'] Hdis]].
  { rewrite bool_decide_eq_true_2 by done. by exists d. }
  destruct Hdis as [[? _]|Hdis]; [done|].
  case_bool_decide; [by exists d|]. rewrite Ha'. simpl.
  eexists. split; [reflexivity|].
  rewrite edge_latch_pressed, decide_False by done. split; [|done].
  destruct (edge_latch_cases a' d st.2)
    as [(-> & _)|[(_ & _ & -> & _)|(_ & _ & _ & -> & _)]]; [done| |].
  - by apply pad_bits_clear_other.
  - by apply pad_bits_set_other.
Qed.

(** A run for [e] itself: the bits of [e] change only when the latch is on
    the other side of the threshold, and afterwards it is not. *)
Lemma edge_step_same e s a d :
  e ∉ analog_inputs -> abs_strength s = Some a ->
  exists d', edge_step d (s, e) = Some d'
    /\ pressed (d_keys d') e = latch_after a (pressed (d_keys d) e)
    /\ ((if bool_decide (pad_bits (d_pad d') e = pad_bits (d_pad d) e)
         then 0 else 1) <= pending_flip a d e)%nat
    /\ (hex e <> 0 -> agrees d e ->
        agrees d' e
        /\ (if bool_decide (pad_bits (d_pad d') e = pad_bits (d_pad d) e)
            then 0%nat else 1%nat) = pending_flip a d e).
Proof.
  intros Hna Ha. unfold edge_step, edge_detect. cbn [fst snd].
  rewrite bool_decide_eq_false_2, Ha by done. simpl.
  eexists. split; [reflexivity|].
  split; [by rewrite edge_latch_pressed, decide_True|].
  unfold agrees, pending_flip.
  rewrite edge_latch_pressed, decide_True by done.
  destruct (edge_latch_cases a d e)
    as [(-> & Hl & _)|[(Hlt & Hp & -> & _)|(Hge & Hlt & Hp & -> & _)]].
  - rewrite Hl. rewrite !bool_decide_eq_true_2 by done. split; [lia|].
    by intros _ ->.
  - assert (latch_after a (pressed (d_keys d) e) = false) as ->.
    { unfold latch_after, side. by rewrite Hlt. }
    rewrite Hp, pad_bits_clear_same.
    rewrite (bool_decide_eq_false_2 (false = true)) by done.
    split; [case_bool_decide; lia|]. intros Hnz ->. split; [done|].
    by rewrite bool_decide_eq_false_2 by done.
  - assert (latch_after a (pressed (d_keys d) e) = true) as ->.
    { unfold latch_after, side. by rewrite Hlt, Hge. }
    rewrite Hp, pad_bits_set_same.
    rewrite (bool_decide_eq_false_2 (true = false)) by done.
    split; [case_bool_decide; lia|]. intros Hnz ->. split; [done|].
    by rewrite bool_decide_eq_false_2 by done.
Qed.

Lemma pad_toggles_with_map e steps : forall d km,
  pad_toggles e steps (with_map km d) = pad_toggles e steps d.
Proof.
  induction steps as [|st steps IH]; intros d km; simpl; [done|].
  unfold edge_step. rewrite edge_detect_with_map.
  destruct (edge_detect st.1 d st.2) as [d'|]; simpl; [|done].
  by rewrite IH.
Qed.

Lemma pad_toggles_app e steps1 steps2 : forall d r (n1 n2 : nat),
  run_steps steps1 d = Some r ->
  pad_toggles e steps1 d = Some n1 ->
  pad_toggles e steps2 r = Some n2 ->
  pad_toggles e (steps1 ++ steps2) d = Some (n1 + n2)%nat.
Proof.
  unfold run_steps.
  induction steps1 as [|st steps1 IH]; intros d r n1 n2; simpl.
  { by intros [= <-] [= <-]. }
  destruct (edge_step d st) as [d'|]; [|done].
  destruct (pad_toggles e steps1 d') as [m|] eqn:Hm; [|done].
  intros Hr [= <-] Hn2. rewrite (IH d' r m n2 Hr Hm Hn2). f_equal. lia.
Qed.

(** The runs of a sequence that holds [e] at the strength [s]: all are
    defined; the bits of [e] change at most as often as the latch of [e]
    owes a transition when the sequence starts, and not at all when no run
    is for [e]; the latch of [e] ends on the side of the threshold [s] is
    on. *)
Lemma fixed_run e s a steps :
  e ∉ analog_inputs -> u32 (hex e) -> hex e <> 0 ->
  abs_strength s = Some a ->
  forall d, Forall (fixed_for e s) steps ->
  exists r n,
    run_steps steps d = Some r
    /\ pad_toggles e steps d = Some n
    /\ (n <= if bool_decide (e ∈ steps.*2) then pending_flip a d e else 0)%nat
    /\ pressed (d_keys r) e
       = (if bool_decide (e ∈ steps.*2)
          then latch_after a (pressed (d_keys d) e)
          else pressed (d_keys d) e)
    /\ (agrees d e ->
        agrees r e
        /\ n = if bool_decide (e ∈ steps.*2) then pending_flip a d e
               else 0%nat).
Proof.
  intros Hna He Hnz Ha. unfold run_steps.
  induction steps as [|st steps IH]; intros d Hfix.
  { exists d, 0%nat. cbn [fold_left_opt pad_toggles].
    rewrite fmap_nil, bool_decide_eq_false_2 by apply not_elem_of_nil. done. }
  apply Forall_cons in Hfix as [Hst Hfix].
  destruct (decide (st.2 = e)) as [Heq|Hne].
  - (* a run for [e] *)
    assert (st = (s, e)) as ->.
    { destruct st as [s' e']. unfold fixed_for in Hst. simpl in *. subst e'.
      destruct Hst as [?|[_ [[_ ->]|Hdis]]]; [done|done|].
      by rewrite Z.land_diag in Hdis. }
    destruct (edge_step_same e s a d Hna Ha) as (d' & Hd' & Hp & Hle' & Hag').
    destruct (IH d' Hfix) as (r & n & Hr & Hn & Hle & Hpr & Hag).
    assert (pending_flip a d' e = 0%nat) as Hzero.
    { unfold pending_flip. rewrite Hp, latch_after_idem.
      by rewrite bool_decide_eq_true_2. }
    assert (n = 0%nat) as ->.
    { rewrite Hzero in Hle. destruct (bool_decide _); lia. }
    eexists r, _. cbn [fold_left_opt pad_toggles]. rewrite Hd', Hn.
    rewrite (bool_decide_eq_true_2 (e ∈ ((s, e) :: steps).*2))
      by (rewrite fmap_cons; apply elem_of_cons; by left).
    split; [done|]. split; [reflexivity|]. split; [lia|]. split.
    + rewrite Hpr, Hp. case_bool_decide; [|done]. apply latch_after_idem.
    + intros Hagd. destruct (Hag' Hnz Hagd) as [Hagd' Heqn].
      split; [by apply Hag|]. lia.
  - (* a run for another target *)
    destruct (edge_step_other e s d st He Hne Hst) as (d' & Hd' & Hb & Hp).
    destruct (IH d' Hfix) as (r & n & Hr & Hn & Hle & Hpr & Hag).
    exists r, n. cbn [fold_left_opt pad_toggles]. rewrite Hd', Hn.
    rewrite (bool_decide_eq_true_2 (pad_bits (d_pad d') e = _)) by done.
    assert (bool_decide (e ∈ (st :: steps).*2) = bool_decide (e ∈ steps.*2))
      as ->.
    { apply bool_decide_ext. rewrite fmap_cons, elem_of_cons.
      split; [intros [?|?]; [congruence|done]|by right]. }
    assert (pending_flip a d' e = pending_flip a d e) as Hpf.
    { unfold pending_flip. by rewrite Hp. }
    rewrite Hpf, Hp in *. split; [done|]. split; [done|]. split; [done|].
    split; [done|]. intros Hagd. apply Hag. unfold agrees in *.
    by rewrite Hb, Hp.
Qed.

Lemma tick_steps_targets (inputs : list Snapshot) km e :
  (exists snap b, snap ∈ inputs /\ b ∈ snap /\ e ∈ targets_of km b.1) ->
  e ∈ (tick_steps km inputs).*2.
Proof.
  intros (snap & b & Hsnap & Hb & He). apply list_elem_of_fmap.
  exists (b.2, e). split; [done|]. unfold tick_steps.
  apply list_elem_of_In, in_flat_map. exists b. split.
  - apply list_elem_of_In, elem_of_concat. by exists snap.
  - apply in_map. by apply list_elem_of_In.
Qed.

Lemma tick_steps_ext (inputs : list Snapshot) km km' :
  (forall k, targets_of km' k = targets_of km k) ->
  tick_steps km' inputs = tick_steps km inputs.
Proof. apply steps_of_ext. Qed.

(** Consecutive passes run the edge detector over the runs of one pass,
    repeated. *)
Lemma passes_steps (inputs : list Snapshot) (N : nat) : forall d,
  exists km',
    (forall k, targets_of km' k = targets_of (d_map d) k)
    /\ passes N inputs d
       = with_map km'
           <$> run_steps (concat (replicate N (tick_steps (d_map d) inputs))) d.
Proof.
  induction N as [|N IH]; intros d.
  { exists (d_map d). simpl. by rewrite with_map_same. }
  cbn [passes replicate concat]. rewrite digital_pass_steps, run_steps_app.
  destruct (run_steps (tick_steps (d_map d) inputs) d) as [r|] eqn:Hr; simpl.
  - destruct (IH (with_map (touched (concat inputs) (d_map d)) r))
      as (km' & Hext & ->).
    cbn [d_map with_map] in *. exists km'. split.
    + intros k. by rewrite Hext, touched_targets.
    + rewrite (tick_steps_ext inputs (d_map d)) by apply touched_targets.
      rewrite run_steps_with_map.
      destruct (run_steps _ r); simpl; [|done].
      by rewrite with_map_with_map.
  - by exists (d_map d).
Qed.

(** C4.  A digital target [e] held at a fixed strength [s] through [N > 1]
    consecutive digital passes: the passes are defined, and over all their
    runs of the edge detector the bits of [e] in the pad change at most
    once.  The change, if any, is in the first pass; the repeats change
    nothing.  With the pad agreeing with the latch of [e] at the start, the
    bits change exactly once when the latch is on the other side of the
    threshold and not at all otherwise, and they end all set or all clear,
    as the side of the threshold requires.  The strength [s] has an absolute
    value [a] as an [int]; every other target the passes reach is analog or
    shares no bit with [e], as the single-bit targets of the pad do. *)
Theorem pad_bit_single_transition (inputs : list Snapshot) e s a d (N : nat) :
  e ∉ analog_inputs -> u32 (hex e) -> hex e <> 0 ->
  abs_strength s = Some a ->
  (forall snap b e', snap ∈ inputs -> b ∈ snap ->
     e' ∈ targets_of (d_map d) b.1 -> fixed_for e s (b.2, e')) ->
  (exists snap b, snap ∈ inputs /\ b ∈ snap /\ e ∈ targets_of (d_map d) b.1) ->
  (1 < N)%nat ->
  let steps := tick_steps (d_map d) inputs in
  exists d1 dN r n,
    digital_pass inputs d = Some d1
    /\ passes (N - 1) inputs d1 = Some dN
    /\ passes N inputs d = Some dN
    /\ run_steps (concat (replicate N steps)) d = Some r
    /\ d_pad dN = d_pad r /\ d_keys dN = d_keys r
    /\ pad_toggles e (concat (replicate N steps)) d = Some n
    /\ (n <= pending_flip a d e <= 1)%nat
    /\ pad_toggles e steps d = Some n
    /\ pad_toggles e (concat (replicate (N - 1) steps)) d1 = Some 0%nat
    /\ pressed (d_keys dN) e = latch_after a (pressed (d_keys d) e)
    /\ (agrees d e ->
        n = pending_flip a d e
        /\ pad_bits (d_pad dN) e
           = if latch_after a (pressed (d_keys d) e) then hex e else 0).
Proof.
  intros Hna He Hnz Ha Hfix Hdriven HN steps.
  assert (Forall (fixed_for e s) steps) as Hsteps.
  { by apply tick_steps_Forall. }
  assert (e ∈ steps.*2) as Hin by by apply tick_steps_targets.
  assert (forall m, (0 < m)%nat -> e ∈ (concat (replicate m steps)).*2)
    as Hinm.
  { intros [|m] Hm; [lia|]. simpl. rewrite fmap_app. apply elem_of_app.
    by left. }
  destruct N as [|N]; [lia|].
  replace (S N - 1)%nat with N by lia.
  (* the first pass *)
  destruct (fixed_run e s a steps Hna He Hnz Ha d Hsteps)
    as (r1 & n1 & Hr1 & Hn1 & Hle1 & Hp1 & Hag1).
  rewrite bool_decide_eq_true_2 in Hle1, Hp1, Hag1 by done.
  (* the repeats *)
  destruct (fixed_run e s a (concat (replicate N steps)) Hna He Hnz Ha r1)
    as (r & n & Hr & Hn & Hle & Hp & Hag).
  { by apply Forall_concat_replicate. }
  rewrite bool_decide_eq_true_2 in Hle, Hp, Hag by (apply Hinm; lia).
  assert (pending_flip a r1 e = 0%nat) as Hzero.
  { unfold pending_flip. rewrite Hp1, latch_after_idem.
    by rewrite bool_decide_eq_true_2. }
  assert (n = 0%nat) as -> by lia.
  (* all the runs *)
  destruct (fixed_run e s a (concat (replicate (S N) steps)) Hna He Hnz Ha d)
    as (r' & n' & Hr' & Hn' & Hle' & Hp' & Hag').
  { by apply Forall_concat_replicate. }
  rewrite bool_decide_eq_true_2 in Hle', Hp', Hag' by (apply Hinm; lia).
  assert (r' = r /\ n' = n1) as [-> ->].
  { cbn [replicate concat] in Hr', Hn'.
    rewrite run_steps_app, Hr1 in Hr'. simpl in Hr'.
    rewrite (pad_toggles_app e _ _ _ _ _ _ Hr1 Hn1 Hn) in Hn'.
    split; [congruence|]. injection Hn' as <-. lia. }
  (* the passes *)
  pose proof (digital_pass_steps inputs d) as Hd1. fold steps in Hd1.
  rewrite Hr1 in Hd1. simpl in Hd1.
  destruct (passes_steps inputs (S N) d) as (kmN & _ & HdN).
  fold steps in HdN. rewrite Hr' in HdN. simpl in HdN.
  eexists _, _, r, n1.
  split; [exact Hd1|]. split.
  { cbn [passes] in HdN. by rewrite Hd1 in HdN. }
  split; [exact HdN|]. split; [done|]. split; [done|]. split; [done|].
  split; [done|]. split; [split; [done|apply pending_flip_le]|].
  split; [done|]. split; [by rewrite pad_toggles_with_map|].
  cbn [d_keys d_pad with_map]. split; [done|].
  intros Hagd. destruct (Hag' Hagd) as [Hagr ->]. split; [done|].
  unfold agrees in Hagr. by rewrite Hagr, Hp'.
Qed.

End EdgeDetector.

Lemma pad_bit_single_transition_witness :
  let inputs := [[(Citra.KeyA, one); (Citra.KeyB, of_ratio 9 10)]] in
  let d := Sessions.idle in
  let e := HID.PAD_A in
  let steps := tick_steps (d_map d) inputs in
  exists d1 dN r n,
    digital_pass (HD := Citra.headers) inputs d = Some d1
    /\ passes (HD := Citra.headers) (3 - 1) inputs d1 = Some dN
    /\ passes (HD := Citra.headers) 3 inputs d = Some dN
    /\ run_steps (HD := Citra.headers) (concat (replicate 3 steps)) d = Some r
    /\ d_pad dN = d_pad r /\ d_keys dN = d_keys r
    /\ pad_toggles (HD := Citra.headers) e (concat (replicate 3 steps)) d
       = Some n
    /\ (n <= pending_flip (HD := Citra.headers) one d e <= 1)%nat
    /\ pad_toggles (HD := Citra.headers) e steps d = Some n
    /\ pad_toggles (HD := Citra.headers) e (concat (replicate (3 - 1) steps)) d1
       = Some 0%nat
    /\ pressed (d_keys dN) e
       = latch_after (HD := Citra.headers) one (pressed (d_keys d) e)
    /\ n = pending_flip (HD := Citra.headers) one d e
    /\ pad_bits (d_pad dN) e
       = if latch_after (HD := Citra.headers) one (pressed (d_keys d) e)
         then hex e else 0.
Proof.
  intros inputs d e steps.
  destruct (pad_bit_single_transition (HD := Citra.headers) inputs e one one
              d 3)
    as (d1 & dN & r & n & H1 & H2 & H3 & H4 & H5 & H6 & H7 & H8 & H9 & H10
        & H11 & Hag).
  - intros Hin. vm_compute in Hin.
    repeat (apply elem_of_cons in Hin as [Hin|Hin]; [discriminate|]).
    by apply elem_of_nil in Hin.
  - unfold u32. vm_compute. split; [discriminate|reflexivity].
  - vm_compute. discriminate.
  - vm_compute. reflexivity.
  - intros snap b e' Hsnap Hb He'.
    apply list_elem_of_singleton in Hsnap. subst snap.
    apply elem_of_cons in Hb as [->|Hb].
    + vm_compute in He'. apply list_elem_of_singleton in He'. subst e'.
      right. split; [by eexists|]. left. by split.
    + apply list_elem_of_singleton in Hb. subst b.
      vm_compute in He'. apply list_elem_of_singleton in He'. subst e'.
      right. split; [by eexists|]. right. vm_compute. reflexivity.
  - exists [(Citra.KeyA, one); (Citra.KeyB, of_ratio 9 10)], (Citra.KeyA, one).
    split; [by left|]. split; [by left|]. vm_compute. by left.
  - lia.
  - exists d1, dN, r, n.
    repeat (split; [assumption|]). apply Hag. vm_compute. reflexivity.
Defined.

(** Three passes with [KeyA] held at 1.0 and [KeyB] at 0.9, from an empty
    latch: the bit of [PAD_A] changes once, in the first pass, and the pad
    ends with that bit alone set; [KeyB], whose strength truncates to 0,
    never presses [PAD_B]. *)
Example three_passes_one_transition :
  let inputs := [[(Citra.KeyA, one); (Citra.KeyB, of_ratio 9 10)]] in
  let steps := tick_steps Citra.table inputs in
  pad_toggles (HD := Citra.headers) HID.PAD_A (concat (replicate 3 steps))
    Sessions.idle = Some 1%nat
  /\ pad_toggles (HD := Citra.headers) HID.PAD_A steps Sessions.idle
     = Some 1%nat
  /\ pad_toggles (HD := Citra.headers) HID.PAD_B (concat (replicate 3 steps))
       Sessions.idle = Some 0%nat
  /\ d_pad <$> passes (HD := Citra.headers) 3 inputs Sessions.idle
     = Some HID.PAD_A.
Proof. vm_compute. repeat split; reflexivity. Qed.

(** ** Detection of the next input *)

Section Detection.

Context `{HD : Headers}.

Implicit Types (cur : gmap InputDeviceMapping bool) (k : InputDeviceMapping).
Implicit Types (s : f32) (i : InputDeviceMapping * f32) (l : Snapshot).

(** A float above a threshold is not below it. *)
Lemma gtb_not_ltb (a b : f32) : gtb a b = true -> ltb a b = false.
Proof.
  unfold gtb, ltb, SFltb. rewrite (SFcompare_antisym a b).
  by destruct (SFcompare a b) as [[]|].
Qed.

(** A sample that ends the loop is above the threshold and its input is not
    recorded as active. *)
Lemma detect_sample_inl cur i k :
  detect_sample cur i = inl k ->
  k = i.1 /\ gtb i.2 input_detect_threshold = true /\ cur !! k <> Some true.
Proof.
  unfold detect_sample, flag_at.
  destruct (gtb i.2 input_detect_threshold) eqn:Hgt;
    destruct (ltb i.2 input_detect_threshold) eqn:Hlt;
    destruct (cur !! i.1) as [[]|] eqn:Hc; simpl;
    intros Hd;
    repeat (rewrite ?Hc, ?lookup_insert_eq in Hd; simpl in Hd);
    simplify_eq; by rewrite Hc.
Qed.

(** An input recorded as active stays so through a sample, unless the sample
    is its own and below the threshold. *)
Lemma detect_sample_inr cur cur' i k :
  detect_sample cur i = inr cur' ->
  cur !! k = Some true ->
  cur' !! k = Some true \/ (i.1 = k /\ ltb i.2 input_detect_threshold = true).
Proof.
  unfold detect_sample, flag_at. intros Hd Hk.
  destruct (decide (i.1 = k)) as [Heq|Hne].
  - rewrite Heq, Hk in Hd. simpl in Hd.
    destruct (gtb i.2 input_detect_threshold) eqn:Hgt; simpl in Hd.
    + rewrite (gtb_not_ltb _ _ Hgt) in Hd. left. by simplify_eq.
    + destruct (ltb i.2 input_detect_threshold) eqn:Hlt; simpl in Hd;
        [by right|left; by simplify_eq].
  - left.
    destruct (gtb i.2 input_detect_threshold) eqn:Hgt;
      destruct (ltb i.2 input_detect_threshold) eqn:Hlt;
      destruct (cur !! i.1) as [[]|] eqn:Hc; simpl in Hd;
      repeat (rewrite ?Hc, ?lookup_insert_eq in Hd; simpl in Hd);
      simplify_eq; by rewrite ?lookup_insert_ne.
Qed.

Lemma detect_samples_inl cur l k :
  detect_samples cur l = inl k ->
  exists pre s post cur',
    l = pre ++ (k, s) :: post
    /\ gtb s input_detect_threshold = true
    /\ detect_samples cur pre = inr cur'
    /\ cur' !! k <> Some true.
Proof.
  revert cur. induction l as [|i l IH]; intros cur Hd; simpl in Hd; [done|].
  destruct (detect_sample cur i) as [found|cur1] eqn:Hi.
  - simplify_eq. apply detect_sample_inl in Hi as (-> & Hgt & Hc).
    exists [], i.2, l, cur. by destruct i.
  - destruct (IH _ Hd) as (pre & s & post & cur' & -> & Hgt & Hpre & Hc).
    exists (i :: pre), s, post, cur'. simpl. by rewrite Hi.
Qed.

Lemma detect_samples_inr cur cur' l k :
  detect_samples cur l = inr cur' ->
  cur !! k = Some true ->
  cur' !! k = Some true
  \/ exists pre s post,
       l = pre ++ (k, s) :: post /\ ltb s input_detect_threshold = true.
Proof.
  revert cur. induction l as [|i l IH]; intros cur Hd Hk; simpl in Hd.
  - left. by simplify_eq.
  - destruct (detect_sample cur i) as [found|cur1] eqn:Hi; [done|].
    destruct (detect_sample_inr _ _ _ k Hi Hk) as [Hk1|[<- Hlt]].
    + destruct (IH _ Hd Hk1) as [Hk'|(pre & s & post & -> & Hlt)]; [by left|].
      right. by exists (i :: pre), s, post.
    + right. exists [], i.2, l. by destruct i.
Qed.

Lemma detect_samples_app cur l1 l2 :
  detect_samples cur (l1 ++ l2)
  = match detect_samples cur l1 with
    | inl found => inl found
    | inr cur' => detect_samples cur' l2
    end.
Proof.
  revert cur. induction l1 as [|i l1 IH]; intros cur; simpl; [done|].
  by destruct (detect_sample cur i).
Qed.

Lemma detect_devices_concat (snapshots : list Snapshot) :
  forall cur, detect_devices cur snapshots = detect_samples cur (concat snapshots).
Proof.
  induction snapshots as [|l snapshots IH]; intros cur; simpl; [done|].
  rewrite detect_samples_app. by destruct (detect_samples cur l).
Qed.

(** The loop is a scan of the stream of polled samples, ended by the first
    sample that is detected or by the time-out. *)
Lemma detect_loop_stream (max_time : Z) (rounds : list Round) :
  key default_mapping = EmptyString ->
  forall cur,
    detect_loop max_time default_mapping cur rounds
    = match detect_samples cur (polled_stream max_time rounds) with
      | inl found => Some found
      | inr _ => if timed_out max_time rounds then Some default_mapping else None
      end.
Proof.
  intros Hkey.
  induction rounds as [|r rounds IH]; intros cur; simpl;
    rewrite bool_decide_eq_true_2 by done; simpl; [done|].
  destruct (max_time <=? elapsed r) eqn:Ht; simpl; [done|].
  rewrite detect_samples_app, detect_devices_concat.
  destruct (detect_samples cur (concat (polled r))); [done|]. apply IH.
Qed.

Lemma detect_loop_entered (max_time : Z) (rounds : list Round) cur :
  key default_mapping <> EmptyString ->
  detect_loop max_time default_mapping cur rounds = Some default_mapping.
Proof.
  intros Hkey. destruct rounds; simpl; by rewrite bool_decide_eq_false_2.
Qed.

(** A scan detects nothing when every sample above the threshold belongs to
    a set [held] of inputs that are recorded as active and never sampled
    below the threshold. *)
Lemma detect_samples_quiet (held : InputDeviceMapping -> Prop) l :
  (forall k s, (k, s) ∈ l -> gtb s input_detect_threshold = true -> held k) ->
  (forall k s, (k, s) ∈ l -> ltb s input_detect_threshold = true -> ~ held k) ->
  forall cur, (forall k, held k -> cur !! k = Some true) ->
    exists cur', detect_samples cur l = inr cur'.
Proof.
  induction l as [|[k s] l IH]; intros Hup Hdown cur Hcur; simpl;
    [by eexists|].
  assert (exists cur1, detect_sample cur (k, s) = inr cur1
            /\ forall k', held k' -> cur1 !! k' = Some true)
    as (cur1 & -> & Hcur1).
  { unfold detect_sample, flag_at. cbn [fst snd].
    destruct (gtb s input_detect_threshold) eqn:Hgt.
    - assert (held k) as Hk by (eapply Hup; [left|done]).
      rewrite (Hcur k Hk). simpl. rewrite (gtb_not_ltb _ _ Hgt). by eexists.
    - destruct (ltb s input_detect_threshold) eqn:Hlt; [|by eexists].
      assert (~ held k) as Hk by (eapply Hdown; [left|done]).
      assert (forall b k', held k' -> <[k:=b]> cur !! k' = Some true) as Hins.
      { intros b k' Hk'. rewrite lookup_insert_ne; [by apply Hcur|].
        by intros ->. }
      destruct (cur !! k) as [[]|] eqn:Hc; simpl; eexists; split; try done.
      all: intros k' Hk'; by (apply Hcur || apply Hins). }
  apply IH; [| |done].
  - intros k' s' Hin. apply Hup. by right.
  - intros k' s' Hin. apply Hdown. by right.
Qed.

Lemma polled_stream_timeout (max_time : Z) (pre post : list Round) (r : Round) :
  max_time <= elapsed r ->
  polled_stream max_time (pre ++ r :: post) = polled_stream max_time pre
  /\ timed_out max_time (pre ++ r :: post) = true.
Proof.
  intros Hr. apply Z.leb_le in Hr.
  induction pre as [|r' pre [IHs IHt]]; simpl.
  - by rewrite Hr.
  - rewrite IHs, IHt. by rewrite orb_true_r.
Qed.

(** The baseline records, for each input, whether its first baseline sample
    is above the threshold. *)
Lemma baseline_samples_lookup l k :
  forall cur,
    fold_left baseline_sample l cur !! k
    = match cur !! k with
      | Some b => Some b
      | None =>
          (fun i => gtb i.2 input_detect_threshold)
            <$> head (filter (fun i => i.1 = k) l)
      end.
Proof.
  induction l as [|i l IH]; intros cur; simpl.
  - by destruct (cur !! k).
  - rewrite IH. unfold baseline_sample.
    destruct (decide (i.1 = k)) as [Heq|Hne].
    + rewrite filter_cons_True by done. rewrite Heq.
      destruct (cur !! k) eqn:Hc; [by rewrite Hc|].
      by rewrite lookup_insert_eq.
    + rewrite filter_cons_False by done.
      destruct (cur !! i.1); [done|]. by rewrite lookup_insert_ne.
Qed.

Lemma baseline_states_first (baseline : list Snapshot) k :
  baseline_states baseline !! k
  = (fun i => gtb i.2 input_detect_threshold)
      <$> head (filter (fun i => i.1 = k) (concat baseline)).
Proof.
  unfold baseline_states.
  assert (forall cur,
            fold_left (fun cur snap => fold_left baseline_sample snap cur)
              baseline cur
            = fold_left baseline_sample (concat baseline) cur) as ->.
  { induction baseline as [|snap baseline IH]; intros cur; simpl; [done|].
    by rewrite fold_left_app, IH. }
  by rewrite baseline_samples_lookup, lookup_empty.
Qed.

(** C6.  When the detection returns an input (a mapping other than the
    default-constructed one that stands for no input) that the baseline
    recorded as active, the stream of polled samples shows that input below
    the threshold, then, later, above it, and nothing was detected up to
    that later sample. *)
Theorem DetectInput_baseline_suppression (max_time : Z)
    (baseline : list Snapshot) (rounds : list Round) k :
  DetectInput max_time baseline rounds = Some k ->
  k <> default_mapping ->
  baseline_states baseline !! k = Some true ->
  exists pre s0 mid s1 post cur',
    polled_stream max_time rounds = pre ++ (k, s0) :: mid ++ (k, s1) :: post
    /\ ltb s0 input_detect_threshold = true
    /\ gtb s1 input_detect_threshold = true
    /\ detect_samples (baseline_states baseline) (pre ++ (k, s0) :: mid)
       = inr cur'.
Proof.
  unfold DetectInput. intros Hd Hk Hb.
  destruct (decide (key default_mapping = EmptyString)) as [Hkey|Hkey];
    [|rewrite detect_loop_entered in Hd by done; congruence].
  rewrite detect_loop_stream in Hd by done.
  destruct (detect_samples _ (polled_stream max_time rounds))
    as [found|cur1] eqn:Hscan;
    [|destruct (timed_out max_time rounds); congruence].
  simplify_eq.
  apply detect_samples_inl in Hscan
    as (pre1 & s1 & post & cur' & Hstream & Hgt & Hpre & Hc).
  destruct (detect_samples_inr _ _ _ k Hpre Hb)
    as [Hk'|(pre & s0 & mid & -> & Hlt)]; [done|].
  exists pre, s0, mid, s1, post, cur'.
  by rewrite Hstream, <- app_assoc.
Qed.

Lemma no_crossing_app base (l1 l2 : Snapshot) :
  no_crossing base (l1 ++ l2) -> no_crossing base l1.
Proof.
  intros Hno pre k s post -> Hgt.
  apply (Hno pre k s (post ++ l2)); [|done]. by rewrite <- app_assoc.
Qed.

(** A scan of a stream without a crossing detects nothing.  [pre] is the
    part of the stream already scanned, [cur] the states after it: an input
    that was active at the baseline and is not shown below the threshold in
    [pre] is still recorded as active. *)
Lemma detect_samples_no_crossing base (l : Snapshot) : forall pre cur,
  (forall k, base !! k = Some true ->
     (forall s', (k, s') ∈ pre -> ltb s' input_detect_threshold = false) ->
     cur !! k = Some true) ->
  no_crossing base (pre ++ l) ->
  exists cur', detect_samples cur l = inr cur'.
Proof.
  induction l as [|[k s] l IH]; intros pre cur Hcur Hno; simpl;
    [by eexists|].
  assert (exists cur1, detect_sample cur (k, s) = inr cur1
            /\ forall k', base !! k' = Some true ->
                 (forall s', (k', s') ∈ pre ++ [(k, s)] ->
                    ltb s' input_detect_threshold = false) ->
                 cur1 !! k' = Some true)
    as (cur1 & -> & Hcur1).
  { assert (forall k', base !! k' = Some true ->
              (forall s', (k', s') ∈ pre ++ [(k, s)] ->
                 ltb s' input_detect_threshold = false) ->
              cur !! k' = Some true) as Hkeep.
    { intros k' Hb Hnd. apply Hcur; [done|]. intros s' Hin. apply Hnd.
      apply elem_of_app. by left. }
    unfold detect_sample, flag_at. cbn [fst snd].
    destruct (gtb s input_detect_threshold) eqn:Hgt.
    - destruct (Hno pre k s l eq_refl Hgt) as [Hb Hnd].
      rewrite (Hcur k Hb Hnd). simpl. rewrite (gtb_not_ltb _ _ Hgt).
      by exists cur.
    - destruct (ltb s input_detect_threshold) eqn:Hlt; [|by exists cur].
      assert (forall b k', base !! k' = Some true ->
                (forall s', (k', s') ∈ pre ++ [(k, s)] ->
                   ltb s' input_detect_threshold = false) ->
                <[k:=b]> cur !! k' = Some true) as Hins.
      { intros b k' Hb Hnd. rewrite lookup_insert_ne; [by apply Hkeep|].
        intros ->. rewrite (Hnd s) in Hlt; [done|].
        apply elem_of_app. right. by left. }
      destruct (cur !! k) as [[]|] eqn:Hc; simpl; eexists; split; try done.
      all: intros k' Hb Hnd; by (apply Hkeep || apply Hins). }
  apply (IH (pre ++ [(k, s)]) cur1 Hcur1). by rewrite <- app_assoc.
Qed.

Lemma timed_out_app (max_time : Z) (rounds1 rounds2 : list Round) :
  timed_out max_time (rounds1 ++ rounds2)
  = timed_out max_time rounds1 || timed_out max_time rounds2.
Proof. apply existsb_app. Qed.

Lemma polled_stream_app (max_time : Z) (rounds1 rounds2 : list Round) :
  timed_out max_time rounds1 = false ->
  polled_stream max_time (rounds1 ++ rounds2)
  = polled_stream max_time rounds1 ++ polled_stream max_time rounds2.
Proof.
  induction rounds1 as [|r rounds1 IH]; simpl; [done|].
  intros Ht. apply orb_false_iff in Ht as [-> Ht].
  by rewrite IH, app_assoc.
Qed.

(** C9.  The rounds [pre] are polled before the time-out and show no
    crossing of the threshold relative to the baseline; the round [r] is the
    first whose elapsed time reaches the time-out.  Then the detection has
    not returned after any number of the rounds [pre] (it is still
    polling), and it returns at the round [r], whatever rounds would
    follow; what it returns is the default-constructed mapping, the one
    with the empty key that stands for no input. *)
Theorem DetectInput_timeout (max_time : Z) (baseline : list Snapshot)
    (pre post : list Round) (r : Round) :
  key default_mapping = EmptyString ->
  timed_out max_time pre = false ->
  max_time <= elapsed r ->
  no_crossing (baseline_states baseline) (polled_stream max_time pre) ->
  (forall n, DetectInput max_time baseline (take n pre) = None)
  /\ DetectInput max_time baseline (pre ++ r :: post) = Some default_mapping.
Proof.
  intros Hkey Htime Hr Hno. unfold DetectInput. split.
  - intros n. rewrite detect_loop_stream by done.
    rewrite <- (take_drop n pre) in Htime, Hno.
    rewrite timed_out_app in Htime. apply orb_false_iff in Htime as [Ht _].
    rewrite polled_stream_app in Hno by done. apply no_crossing_app in Hno.
    destruct (detect_samples_no_crossing (baseline_states baseline)
                (polled_stream max_time (take n pre)) []
                (baseline_states baseline)) as [cur' ->]; [by intros| |].
    + done.
    + by rewrite Ht.
  - rewrite detect_loop_stream by done.
    destruct (polled_stream_timeout max_time pre post r Hr) as [-> ->].
    destruct (detect_samples_no_crossing (baseline_states baseline)
                (polled_stream max_time pre) []
                (baseline_states baseline)) as [cur' ->]; by intros.
Qed.

End Detection.

Lemma DetectInput_baseline_suppression_witness :
  exists pre s0 mid s1 post cur',
    polled_stream 50 Citra.repress
      = pre ++ (Citra.KeyA, s0) :: mid ++ (Citra.KeyA, s1) :: post
    /\ ltb s0 (input_detect_threshold (Headers := Citra.headers)) = true
    /\ gtb s1 (input_detect_threshold (Headers := Citra.headers)) = true
    /\ detect_samples (HD := Citra.headers)
         (baseline_states (HD := Citra.headers) Citra.baseline)
         (pre ++ (Citra.KeyA, s0) :: mid)
       = inr cur'.
Proof.
  apply (DetectInput_baseline_suppression (HD := Citra.headers) 50
           Citra.baseline Citra.repress Citra.KeyA).
  - vm_compute. reflexivity.
  - discriminate.
  - vm_compute. reflexivity.
Defined.

Lemma DetectInput_timeout_witness :
  (forall n, DetectInput (HD := Citra.headers) 50 Citra.baseline
               (take n Sessions.release_a) = None)
  /\ DetectInput (HD := Citra.headers) 50 Citra.baseline
       (Sessions.release_a ++ Citra.late :: [])
     = Some (default_mapping (Headers := Citra.headers)).
Proof.
  apply (DetectInput_timeout (HD := Citra.headers) 50 Citra.baseline
           Sessions.release_a [] Citra.late).
  - reflexivity.
  - reflexivity.
  - simpl. lia.
  - intros pre k s post Heq Hgt.
    change (polled_stream 50 Sessions.release_a)
      with [(Citra.KeyA, one); (Citra.KeyB, zero);
            (Citra.KeyA, zero); (Citra.KeyB, zero);
            (Citra.KeyA, zero); (Citra.KeyB, zero)] in Heq.
    destruct pre as [|i0 pre]; simpl in Heq.
    { injection Heq as <- <- _. split; [vm_compute; reflexivity|].
      intros s' Hin. by apply elem_of_nil in Hin. }
    exfalso. injection Heq as _ Heq.
    repeat (destruct pre as [|? pre]; simpl in Heq;
            [injection Heq as <- <- _; vm_compute in Hgt; discriminate
            |injection Heq as _ Heq]).
    by destruct pre.
Defined.

(** * Further properties of the engine *)

(** ** Analog pass: edge cases *)

Lemma magnitude_nan (x y : f32) :
  x = S754_nan \/ y = S754_nan -> magnitude x y = S754_nan.
Proof.
  unfold magnitude, sqrt, add, mul.
  intros [-> | ->]; [by destruct (SFmul prec emax y y)|].
  by destruct (SFmul prec emax x x).
Qed.

Lemma ltb_nan_l (z : f32) : ltb S754_nan z = false.
Proof. by destruct z. Qed.

Lemma div_nan_r (z : f32) : div z S754_nan = S754_nan.
Proof. by destruct z. Qed.

Lemma mul_nan_l (z : f32) : mul S754_nan z = S754_nan.
Proof. by destruct z. Qed.

(** X1.  A NaN coordinate is not filtered by the deadzone, whatever the
    other coordinate and the deadzone are: both outputs are NaN. *)
Theorem ApplyDeadzone_nan (x y dead_zone : f32) :
  x = S754_nan \/ y = S754_nan ->
  ApplyDeadzone x y dead_zone = (S754_nan, S754_nan).
Proof.
  intros Hnan. unfold ApplyDeadzone.
  rewrite (magnitude_nan x y Hnan), ltb_nan_l, !div_nan_r.
  by rewrite !mul_nan_l.
Qed.

Lemma ApplyDeadzone_nan_witness :
  ApplyDeadzone S754_nan one (of_ratio 1 10) = (S754_nan, S754_nan).
Proof. apply ApplyDeadzone_nan. by left. Defined.

Section AnalogEdge.

Context `{HD : Headers}.

Implicit Types (km : gmap InputDeviceMapping (list PadState)).
Implicit Types (k : InputDeviceMapping) (e : PadState) (s : f32).
Implicit Types (a : Analog) (b : InputDeviceMapping * f32).

Lemma set_circle_pad_nan (V : Values) a :
  left_x a = S754_nan \/ left_y a = S754_nan -> set_circle_pad V a = None.
Proof.
  intros Hnan. unfold set_circle_pad, ApplyDeadzone.
  rewrite (magnitude_nan _ _ Hnan), ltb_nan_l, !div_nan_r. cbn [fst snd].
  by rewrite !mul_nan_l.
Qed.

(** X3.  A tick whose last sample drives the Right direction with a NaN
    strength hands a NaN to the 16-bit conversion: the tick has no defined
    result. *)
Theorem UpdateEmulatorInputs_nan (V : Values) (pre : list Snapshot)
    (snap : Snapshot) k (c : InputCore) :
  PAD_CIRCLE_RIGHT <> PAD_CIRCLE_UP ->
  PAD_CIRCLE_RIGHT <> PAD_CIRCLE_DOWN ->
  PAD_CIRCLE_RIGHT <> PAD_CIRCLE_LEFT ->
  key_mappings c !! k = Some [PAD_CIRCLE_RIGHT] ->
  UpdateEmulatorInputs V (pre ++ [snap ++ [(k, S754_nan)]]) c = None.
Proof.
  intros Hu Hd Hl Hk. unfold UpdateEmulatorInputs.
  pose proof (analog_pass_last_right V pre snap k S754_nan _ Hk eq_refl
                Hu Hd Hl) as Hx.
  destruct (analog_pass V _ (key_mappings c)) as [a km]. cbn [fst] in Hx.
  rewrite set_circle_pad_nan; [done|by left].
Qed.

Lemma analog_targets_zero s (l : list PadState) a :
  eqb s zero = true -> fold_left (analog_target s) l a = a.
Proof.
  intros Hs. induction l as [|e l IH]; simpl; [done|].
  unfold analog_target at 2. by rewrite Hs.
Qed.

(** A sample of strength 0 that is not the modifier changes no local of the
    analog pass. *)
Lemma analog_button_zero (V : Values) a km b :
  eqb b.2 zero = true ->
  mapping_eq b.1 (pad_circle_modifier V) = false ->
  (analog_button V (a, km) b).1 = a.
Proof.
  intros Hs Hm. unfold analog_button.
  destruct (key_mappings_at b.1 km) as [l km'].
  by rewrite analog_targets_zero, Hm.
Qed.

Lemma analog_pass_idle (V : Values) (inputs : list Snapshot) km :
  (forall snap b, snap ∈ inputs -> b ∈ snap ->
     eqb b.2 zero = true /\ mapping_eq b.1 (pad_circle_modifier V) = false) ->
  (analog_pass V inputs km).1
  = {| left_x := zero; left_y := zero; circle_pad_modifier := one |}.
Proof.
  unfold analog_pass.
  generalize {| left_x := zero; left_y := zero; circle_pad_modifier := one |}.
  intros a. revert a km.
  induction inputs as [|snap inputs IH]; intros a km Hidle; simpl; [done|].
  assert (forall acc, acc.1 = a ->
            (fold_left (analog_button V) snap acc).1 = a) as Hsnap.
  { assert (forall b, b ∈ snap ->
              eqb b.2 zero = true
              /\ mapping_eq b.1 (pad_circle_modifier V) = false) as Hs.
    { intros b Hb. apply (Hidle snap); [left|done]. }
    clear Hidle IH. induction snap as [|b snap IHs]; intros acc Ha; simpl;
      [done|].
    apply IHs.
    - intros b' Hb'. apply Hs. by right.
    - destruct acc as [a' km']. simpl in Ha. subst a'.
      destruct (Hs b) as [Hz Hm]; [left|]. by apply analog_button_zero. }
  destruct (fold_left (analog_button V) snap (a, km)) as [a1 km1] eqn:Hf.
  specialize (Hsnap (a, km) eq_refl). rewrite Hf in Hsnap. simpl in Hsnap.
  subst a1. apply IH. intros snap' b Hin. apply Hidle. by right.
Qed.

(** A strength that compares equal to 0 is a zero: its absolute value as an
    [int] is 0. *)
Lemma eqb_zero_abs_strength (s : f32) :
  eqb s zero = true -> is_Some (abs_strength s).
Proof.
  unfold eqb, SFeqb.
  destruct s as [sz|sz| |sz m e]; simpl; try done; by destruct sz.
Qed.

(** X4.  A tick in which every sample has strength 0 (or that has no sample
    at all) centres the circle pad, when the deadzone is positive. *)
Theorem idle_tick_centres (V : Values) (inputs : list Snapshot)
    (c : InputCore) :
  0 <= MAX_CIRCLEPAD_POS <= 32767 ->
  gtb (pad_circle_deadzone V) zero = true ->
  (forall snap b, snap ∈ inputs -> b ∈ snap ->
     eqb b.2 zero = true /\ mapping_eq b.1 (pad_circle_modifier V) = false) ->
  exists c', UpdateEmulatorInputs V inputs c = Some c'
    /\ circle_pad c' = (0, 0).
Proof.
  intros Hmax Hdz Hidle. unfold UpdateEmulatorInputs.
  pose proof (analog_pass_idle V inputs (key_mappings c) Hidle) as Ha.
  destruct (analog_pass V inputs (key_mappings c)) as [a km].
  cbn [fst] in Ha. subst a.
  destruct (full_scale _ Hmax) as (_ & Hx & Hy).
  assert (set_circle_pad V
            {| left_x := zero; left_y := zero; circle_pad_modifier := one |}
          = Some (0, 0)) as ->.
  { unfold set_circle_pad, ApplyDeadzone. cbn [left_x left_y circle_pad_modifier].
    change (magnitude zero zero) with zero.
    change (ltb zero (pad_circle_deadzone V))
      with (gtb (pad_circle_deadzone V) zero).
    rewrite Hdz. cbn [fst snd]. by rewrite Hx, Hy. }
  simpl.
  match goal with |- context [digital_pass inputs ?d0] =>
    destruct (digital_pass_defined inputs d0) as [d Hd] end.
  { intros snap b Hsnap Hb. apply eqb_zero_abs_strength.
    by apply (Hidle snap b). }
  rewrite Hd. simpl. eexists. split; [reflexivity|done].
Qed.

(** X5.  With a deadzone of 0 the same tick divides 0 by 0: the cache would
    get a NaN, and the tick has no defined result. *)
Theorem idle_tick_zero_deadzone (V : Values) (inputs : list Snapshot)
    (c : InputCore) :
  is_zero (pad_circle_deadzone V) = true ->
  (forall snap b, snap ∈ inputs -> b ∈ snap ->
     eqb b.2 zero = true /\ mapping_eq b.1 (pad_circle_modifier V) = false) ->
  UpdateEmulatorInputs V inputs c = None.
Proof.
  intros Hdz Hidle. unfold UpdateEmulatorInputs.
  pose proof (analog_pass_idle V inputs (key_mappings c) Hidle) as Ha.
  destruct (analog_pass V inputs (key_mappings c)) as [a km].
  cbn [fst] in Ha. subst a.
  assert (set_circle_pad V
            {| left_x := zero; left_y := zero; circle_pad_modifier := one |}
          = None) as ->; [|done].
  unfold set_circle_pad, ApplyDeadzone. cbn [left_x left_y circle_pad_modifier].
  change (magnitude zero zero) with zero.
  by destruct (pad_circle_deadzone V) as [sz| | |].
Qed.

End AnalogEdge.

Section AnalogRaw.

Context `{HD : Headers}.

Implicit Types (km : gmap InputDeviceMapping (list PadState)).
Implicit Types (k : InputDeviceMapping) (e : PadState) (s : f32).
Implicit Types (a : Analog) (b : InputDeviceMapping * f32).
Implicit Types (acc : Analog * gmap InputDeviceMapping (list PadState)).

Lemma analog_target_raw s a a' e :
  raw a = raw a' -> raw (analog_target s a e) = raw (analog_target s a' e).
Proof.
  unfold raw, analog_target. intros [= Hx Hy].
  repeat case_match; simpl; congruence.
Qed.

Lemma analog_targets_raw s (l : list PadState) : forall a a',
  raw a = raw a' ->
  raw (fold_left (analog_target s) l a) = raw (fold_left (analog_target s) l a').
Proof.
  induction l as [|e l IH]; intros a a' Hr; simpl; [done|].
  by apply IH, analog_target_raw.
Qed.

Lemma analog_button_raw (V : Values) a km b :
  raw (analog_button V (a, km) b).1
  = raw (fold_left (analog_target b.2) (targets_of km b.1) a)
  /\ forall k, targets_of (analog_button V (a, km) b).2 k = targets_of km k.
Proof.
  destruct (key_mappings_at_targets b.1 km) as [Hl Hkm].
  unfold analog_button. destruct (key_mappings_at b.1 km) as [l km'].
  simpl in Hl, Hkm. subst l. split; [|done].
  by destruct (mapping_eq _ _).
Qed.

Lemma analog_button_equiv (V : Values) acc acc' b :
  raw_equiv acc acc' ->
  raw_equiv (analog_button V acc b) (analog_button V acc' b).
Proof.
  destruct acc as [a km], acc' as [a' km']. intros [Hr Ht]. simpl in Hr, Ht.
  destruct (analog_button_raw V a km b) as [Hr1 Ht1].
  destruct (analog_button_raw V a' km' b) as [Hr2 Ht2].
  split.
  - rewrite Hr1, Hr2, Ht. by apply analog_targets_raw.
  - intros k. by rewrite Ht1, Ht2.
Qed.

Lemma analog_button_still (V : Values) acc acc' b :
  eqb b.2 zero = true ->
  raw_equiv acc acc' -> raw_equiv (analog_button V acc b) acc'.
Proof.
  destruct acc as [a km], acc' as [a' km']. intros Hz [Hr Ht].
  simpl in Hr, Ht.
  destruct (analog_button_raw V a km b) as [Hr1 Ht1].
  split.
  - rewrite Hr1. by rewrite analog_targets_zero.
  - intros k. by rewrite Ht1.
Qed.

Lemma analog_buttons_moving (V : Values) (snap : Snapshot) : forall acc acc',
  raw_equiv acc acc' ->
  raw_equiv (fold_left (analog_button V) snap acc)
            (fold_left (analog_button V) (moving snap) acc').
Proof.
  unfold moving.
  induction snap as [|b snap IH]; intros acc acc' Heq; simpl; [done|].
  destruct (eqb b.2 zero) eqn:Hz.
  - rewrite filter_cons_False by (by rewrite Hz).
    by apply IH, analog_button_still.
  - rewrite filter_cons_True by done. simpl.
    by apply IH, analog_button_equiv.
Qed.

(** X6.  Samples of strength 0 (or -0) never move the stick: the raw vector
    of a tick is the one of the tick without them. *)
Theorem analog_pass_moving (V : Values) (inputs : list Snapshot) km :
  raw (analog_pass V inputs km).1
  = raw (analog_pass V (moving <$> inputs) km).1.
Proof.
  unfold analog_pass.
  set (acc0 := ({| left_x := zero; left_y := zero;
                   circle_pad_modifier := one |}, km)).
  assert (raw_equiv acc0 acc0) as Heq by done.
  revert Heq. generalize acc0 at 1 3. generalize acc0. clear acc0.
  induction inputs as [|snap inputs IH]; intros acc' acc [Hr Ht]; simpl;
    [done|].
  apply IH. by apply analog_buttons_moving.
Qed.

Lemma analog_buttons_targets (V : Values) (snap : Snapshot) : forall acc k,
  targets_of (fold_left (analog_button V) snap acc).2 k = targets_of acc.2 k.
Proof.
  induction snap as [|b snap IH]; intros [a km] k; simpl; [done|].
  rewrite IH. by destruct (analog_button_raw V a km b) as [_ ->].
Qed.

Lemma analog_pass_targets (V : Values) (inputs : list Snapshot) km k :
  targets_of (analog_pass V inputs km).2 k = targets_of km k.
Proof.
  unfold analog_pass.
  generalize {| left_x := zero; left_y := zero; circle_pad_modifier := one |}.
  intros a. revert a km.
  induction inputs as [|snap inputs IH]; intros a km; simpl; [done|].
  destruct (fold_left (analog_button V) snap (a, km)) as [a1 km1] eqn:Hf.
  rewrite IH. change km1 with (a1, km1).2. rewrite <- Hf.
  apply analog_buttons_targets.
Qed.

Lemma analog_button_present (V : Values) acc b :
  is_Some ((analog_button V acc b).2 !! b.1).
Proof.
  destruct acc as [a km]. unfold analog_button, key_mappings_at.
  destruct (km !! b.1) eqn:Hk; simpl; [by rewrite Hk|].
  by rewrite lookup_insert_eq.
Qed.

Lemma analog_buttons_present (V : Values) (snap : Snapshot) b : forall acc,
  b ∈ snap -> is_Some ((fold_left (analog_button V) snap acc).2 !! b.1).
Proof.
  induction snap as [|b' snap IH]; intros acc Hb; [by apply elem_of_nil in Hb|].
  simpl. apply elem_of_cons in Hb as [->|Hb]; [|by apply IH].
  destruct (analog_button_present V acc b') as [l Hl].
  exists l. by apply analog_buttons_lookup.
Qed.

Lemma analog_pass_present (V : Values) (inputs : list Snapshot) km snap b :
  snap ∈ inputs -> b ∈ snap ->
  is_Some ((analog_pass V inputs km).2 !! b.1).
Proof.
  unfold analog_pass.
  generalize ({| left_x := zero; left_y := zero; circle_pad_modifier := one |},
              km).
  induction inputs as [|snap' inputs IH]; intros acc Hsnap Hb;
    [by apply elem_of_nil in Hsnap|].
  simpl. apply elem_of_cons in Hsnap as [<-|Hsnap]; [|by apply IH].
  destruct (analog_buttons_present V snap b acc Hb) as [l Hl].
  exists l. by apply analog_snapshots_lookup.
Qed.

(** X7.  What a tick does besides the pad, the latch and the circle pad: the
    device registry is not touched; every sampled input has an entry in the
    mapping table afterwards; the entries that existed are kept, and every
    input still yields the targets it yielded before, so an entry that is
    new is empty. *)
Theorem UpdateEmulatorInputs_table (V : Values) (inputs : list Snapshot)
    (c c' : InputCore) :
  UpdateEmulatorInputs V inputs c = Some c' ->
  devices c' = devices c
  /\ main_keyboard c' = main_keyboard c
  /\ (forall snap b, snap ∈ inputs -> b ∈ snap ->
        is_Some (key_mappings c' !! b.1))
  /\ (forall k l, key_mappings c !! k = Some l ->
        key_mappings c' !! k = Some l)
  /\ (forall k, targets_of (key_mappings c') k = targets_of (key_mappings c) k).
Proof.
  unfold UpdateEmulatorInputs. intros Hu.
  pose proof (analog_pass_targets V inputs (key_mappings c)) as Ht.
  pose proof (analog_pass_present V inputs (key_mappings c)) as Hp.
  pose proof (fun k l => analog_snapshots_lookup V inputs k l
                ({| left_x := zero; left_y := zero;
                    circle_pad_modifier := one |}, key_mappings c)) as Hl.
  fold (analog_pass V inputs (key_mappings c)) in Hl.
  destruct (analog_pass V inputs (key_mappings c)) as [a km].
  cbn [fst snd] in *.
  destruct (set_circle_pad V a) as [cp|]; [|done]. simpl in Hu.
  set (d := {| d_pad := pad_state c; d_keys := keys_pressed c; d_map := km |})
    in Hu.
  destruct (digital_pass inputs d) as [d'|] eqn:Hd; [|done]. simpl in Hu.
  injection Hu as <-. cbn [devices main_keyboard key_mappings].
  split; [done|]. split; [done|]. split; [|split].
  - intros snap b Hsnap Hb. destruct (Hp snap b Hsnap Hb) as [l Hkm].
    exists l. by apply (digital_pass_lookup _ _ _ _ _ Hd).
  - intros k l Hk. apply (digital_pass_lookup _ _ _ _ _ Hd). by apply Hl.
  - intros k. rewrite digital_pass_steps in Hd.
    destruct (run_steps _ d) as [r|]; [|done]. injection Hd as <-.
    cbn [d_map with_map]. by rewrite touched_targets, Ht.
Qed.

End AnalogRaw.

(** ** Digital pass: pad bits and latch *)

Lemma u32_of_bits (a : Z) :
  0 <= a -> (forall n, 32 <= n -> Z.testbit a n = false) -> u32 a.
Proof.
  intros Ha Hhigh. apply u32_mod. apply Z.bits_inj'. intros n Hn.
  destruct (Z.lt_ge_cases n 32) as [Hlt|Hge].
  - by rewrite Z.mod_pow2_bits_low by lia.
  - rewrite Z.mod_pow2_bits_high by lia. by rewrite Hhigh.
Qed.

Lemma pad_set_u32 (pad e : PadState) :
  u32 (hex pad) -> u32 (hex e) -> u32 (hex (pad_set pad e)).
Proof.
  intros Hp He. simpl. apply u32_of_bits.
  - apply Z.lor_nonneg. unfold u32 in *. lia.
  - intros n Hn. rewrite Z.lor_spec.
    by rewrite (u32_high_bits _ _ Hp Hn), (u32_high_bits _ _ He Hn).
Qed.

Lemma pad_clear_u32 (pad e : PadState) : u32 (hex (pad_clear pad e)).
Proof.
  simpl. apply u32_of_bits.
  - apply Z.land_nonneg. right. unfold u32_not. apply Z.mod_pos_bound. lia.
  - intros n Hn. rewrite Z.land_spec, u32_not_bits by lia.
    assert ((n <? 32) = false) as -> by (apply Z.ltb_ge; lia).
    apply andb_false_r.
Qed.

(** Releasing a target that was pressed on a pad where its bits were clear
    gives the pad back. *)
Lemma pad_clear_set (pad e : PadState) :
  u32 (hex pad) -> Z.land (hex pad) (hex e) = 0 ->
  pad_clear (pad_set pad e) e = pad.
Proof.
  intros Hp Hdis. destruct pad as [p], e as [x]. simpl in *.
  unfold pad_clear, pad_set. simpl. f_equal. apply Z.bits_inj'. intros n Hn.
  rewrite Z.land_spec, Z.lor_spec, u32_not_bits by done.
  apply (f_equal (fun z => Z.testbit z n)) in Hdis.
  rewrite Z.land_spec, Z.bits_0 in Hdis.
  destruct (Z.lt_ge_cases n 32) as [Hlt|Hge].
  - assert ((n <? 32) = true) as -> by (apply Z.ltb_lt; lia).
    destruct (Z.testbit p n), (Z.testbit x n); simpl in *; congruence.
  - rewrite (u32_high_bits p n Hp Hge).
    assert ((n <? 32) = false) as -> by (apply Z.ltb_ge; lia).
    apply andb_false_r.
Qed.

Lemma bits_set_pad_set_same (pad e : PadState) : bits_set (pad_set pad e) e.
Proof.
  unfold bits_set. simpl. apply Z.bits_inj'. intros n Hn.
  rewrite Z.land_spec, Z.lor_spec.
  by destruct (Z.testbit (hex pad) n), (Z.testbit (hex e) n).
Qed.

Lemma bits_set_pad_set (pad e e' : PadState) :
  bits_set pad e -> bits_set (pad_set pad e') e.
Proof.
  unfold bits_set. simpl. intros Hs. apply Z.bits_inj'. intros n Hn.
  apply (f_equal (fun z => Z.testbit z n)) in Hs.
  rewrite Z.land_spec in *. rewrite Z.lor_spec.
  destruct (Z.testbit (hex pad) n), (Z.testbit (hex e) n),
    (Z.testbit (hex e') n); simpl in *; congruence.
Qed.

Lemma bits_set_pad_clear (pad e e' : PadState) :
  u32 (hex e) -> Z.land (hex e) (hex e') = 0 ->
  bits_set pad e -> bits_set (pad_clear pad e') e.
Proof.
  unfold bits_set. simpl. intros He Hdis Hs. apply Z.bits_inj'. intros n Hn.
  apply (f_equal (fun z => Z.testbit z n)) in Hs, Hdis.
  rewrite Z.land_spec in *. rewrite Z.bits_0 in Hdis.
  rewrite Z.land_spec, u32_not_bits by done.
  destruct (Z.lt_ge_cases n 32) as [Hlt|Hge].
  - assert ((n <? 32) = true) as -> by (apply Z.ltb_lt; lia).
    destruct (Z.testbit (hex pad) n), (Z.testbit (hex e) n),
      (Z.testbit (hex e') n); simpl in *; congruence.
  - rewrite (u32_high_bits _ n He Hge). apply andb_false_r.
Qed.

Section PadBits.

Context `{HD : Headers}.

Implicit Types (e : PadState) (s : f32) (d : Digital).
Implicit Types (st : f32 * PadState) (steps : list (f32 * PadState)).

(** One run of the detector keeps the pad agreeing with the latch of [e],
    when the target it runs for is [e] or shares no bit with [e]. *)
Lemma edge_step_in_step e d st d' :
  u32 (hex e) ->
  st.2 = e \/ Z.land (hex e) (hex st.2) = 0 ->
  in_step d e -> edge_step d st = Some d' -> in_step d' e.
Proof.
  intros He Hdis Hin. unfold edge_step, edge_detect.
  case_bool_decide; [by intros [= <-]|].
  destruct (abs_strength st.1) as [a|]; [|done]. simpl. intros [= <-].
  unfold in_step in *.
  destruct (edge_latch_cases a d st.2)
    as [(Hpad & _ & Hkeys)|[(_ & Hp & Hpad & Hkeys)|(_ & _ & Hp & Hpad & Hkeys)]].
  - rewrite Hpad, Hkeys. done.
  - rewrite Hpad, Hkeys, pressed_insert. case_decide as Heq; [done|].
    intros Hpe. destruct Hdis as [?|Hdis]; [done|].
    by apply bits_set_pad_clear, Hin.
  - rewrite Hpad, Hkeys, pressed_insert. case_decide as Heq.
    + rewrite Heq. intros _. apply bits_set_pad_set_same.
    + intros Hpe. by apply bits_set_pad_set, Hin.
Qed.

(** The digital pass keeps the pad in step with the latch: a target [e]
    that is latched as pressed after the pass has its bits set in the pad,
    if that held before the pass and every target the pass runs the
    detector for is [e] itself or shares no bit with [e]. *)
Lemma digital_pass_in_step (inputs : list Snapshot) d d' e :
  u32 (hex e) ->
  (forall snap b e', snap ∈ inputs -> b ∈ snap ->
     e' ∈ targets_of (d_map d) b.1 ->
     e' = e \/ Z.land (hex e) (hex e') = 0) ->
  in_step d e -> digital_pass inputs d = Some d' -> in_step d' e.
Proof.
  intros He Hdis Hin. rewrite digital_pass_steps.
  destruct (run_steps _ d) as [r|] eqn:Hr; [|done]. simpl. intros [= <-].
  unfold in_step. cbn [d_keys d_pad with_map].
  apply (run_steps_invariant (fun d => in_step d e)
           (fun st => st.2 = e \/ Z.land (hex e) (hex st.2) = 0))
    with (3 := Hin) (4 := Hr).
  - intros d0 st d0' Hst Hd0. by apply edge_step_in_step.
  - apply tick_steps_Forall. intros snap b e' Hsnap Hb He'. simpl.
    by apply (Hdis snap b).
Qed.

Lemma edge_step_u32 d st d' :
  u32 (hex st.2) -> u32 (hex (d_pad d)) -> edge_step d st = Some d' ->
  u32 (hex (d_pad d')).
Proof.
  intros He Hd. unfold edge_step, edge_detect.
  case_bool_decide; [by intros [= <-]|].
  destruct (abs_strength st.1) as [a|]; [|done]. simpl. intros [= <-].
  destruct (edge_latch_cases a d st.2)
    as [(-> & _)|[(_ & _ & -> & _)|(_ & _ & _ & -> & _)]]; [done| |].
  - apply pad_clear_u32.
  - by apply pad_set_u32.
Qed.

(** The pad stays a 32-bit value through the digital pass when the targets
    of the sampled inputs are 32-bit values. *)
Lemma digital_pass_u32 (inputs : list Snapshot) d d' :
  u32 (hex (d_pad d)) ->
  (forall snap b e, snap ∈ inputs -> b ∈ snap ->
     e ∈ targets_of (d_map d) b.1 -> u32 (hex e)) ->
  digital_pass inputs d = Some d' ->
  u32 (hex (d_pad d')).
Proof.
  intros Hd Ht. rewrite digital_pass_steps.
  destruct (run_steps _ d) as [r|] eqn:Hr; [|done]. simpl. intros [= <-].
  cbn [d_pad with_map].
  apply (run_steps_invariant (fun d => u32 (hex (d_pad d)))
           (fun st => u32 (hex st.2)))
    with (3 := Hd) (4 := Hr).
  - intros d0 st d0' Hst Hd0. by apply edge_step_u32.
  - apply tick_steps_Forall. intros snap b e Hsnap Hb He. simpl.
    by apply (Ht snap b).
Qed.

Lemma digital_pass_single d k s e :
  d_map d !! k = Some [e] ->
  digital_pass [[(k, s)]] d = edge_detect s d e.
Proof.
  intros Hk. unfold digital_pass, digital_button. cbn [fold_left_opt fst snd].
  rewrite (key_mappings_at_present _ _ _ Hk). cbn [fold_left_opt].
  assert ({| d_pad := d_pad d; d_keys := d_keys d; d_map := d_map d |} = d)
    as -> by by destruct d.
  by destruct (edge_detect s d e).
Qed.

(** A pass over one sample whose input has the single digital target [e]
    runs the two tests once, on the absolute value of the strength as an
    [int]. *)
Lemma digital_pass_latch d k s a e :
  d_map d !! k = Some [e] -> e ∉ analog_inputs ->
  abs_strength s = Some a ->
  digital_pass [[(k, s)]] d = Some (edge_latch a d e).
Proof.
  intros Hk Hna Ha. rewrite (digital_pass_single _ _ _ _ Hk).
  unfold edge_detect. by rewrite bool_decide_eq_false_2, Ha.
Qed.

(** X10.  Press, then release: a tick that presses a target whose latch is
    released and whose bits are clear sets its bits; the tick that releases
    it gives back the pad of before.  The strengths are compared through
    their absolute values as [int]: [a1], at or above the threshold, and
    [a0], below it. *)
Theorem press_release_round_trip d k e s1 s0 a1 a0 :
  d_map d !! k = Some [e] ->
  e ∉ analog_inputs ->
  pressed (d_keys d) e = false ->
  abs_strength s1 = Some a1 ->
  geb a1 input_detect_threshold = true ->
  abs_strength s0 = Some a0 ->
  ltb a0 input_detect_threshold = true ->
  u32 (hex (d_pad d)) ->
  Z.land (hex (d_pad d)) (hex e) = 0 ->
  exists d1 d2,
    digital_pass [[(k, s1)]] d = Some d1
    /\ digital_pass [[(k, s0)]] d1 = Some d2
    /\ d_pad d1 = pad_set (d_pad d) e
    /\ pressed (d_keys d1) e = true
    /\ d_pad d2 = d_pad d
    /\ pressed (d_keys d2) e = false.
Proof.
  intros Hk Hna Hp Ha1 Hge Ha0 Hlt Hu Hclear.
  exists (edge_latch a1 d e), (edge_latch a0 (edge_latch a1 d e) e).
  split; [by apply digital_pass_latch|].
  split; [apply digital_pass_latch; by rewrite ?edge_latch_map|].
  assert (d_pad (edge_latch a1 d e) = pad_set (d_pad d) e) as Hpad1.
  { destruct (edge_latch_cases a1 d e)
      as [(_ & Hl & _)|[(Hlt1 & _)|(_ & _ & _ & Hpad & _)]]; [| |done].
    - unfold latch_after, side in Hl.
      rewrite (geb_not_ltb _ _ Hge), Hge in Hl. congruence.
    - by rewrite (geb_not_ltb _ _ Hge) in Hlt1. }
  assert (pressed (d_keys (edge_latch a1 d e)) e = true) as Hp1.
  { rewrite edge_latch_pressed, decide_True by done.
    unfold latch_after, side. by rewrite (geb_not_ltb _ _ Hge), Hge. }
  split; [done|]. split; [done|]. split.
  - destruct (edge_latch_cases a0 (edge_latch a1 d e) e)
      as [(_ & Hl & _)|[(_ & _ & -> & _)|(_ & Hlt0 & _)]].
    + unfold latch_after, side in Hl. rewrite Hlt in Hl. congruence.
    + by rewrite Hpad1, pad_clear_set.
    + congruence.
  - rewrite edge_latch_pressed, decide_True by done.
    unfold latch_after, side. by rewrite Hlt.
Qed.

End PadBits.

(** ** Truncated strengths, undefined strengths and injected pad states *)

Lemma nan_sides (b : f32) :
  ltb S754_nan b = false /\ gtb S754_nan b = false /\ geb S754_nan b = false.
Proof. by destruct b. Qed.

Lemma pressed_true (keys : gmap PadState bool) (e : PadState) :
  pressed keys e = true <-> keys !! e = Some true.
Proof. unfold pressed. destruct (keys !! e) as [[]|]; simpl; by split. Qed.

Section Boundary.

Context `{HD : Headers}.

Implicit Types (e : PadState) (s : f32) (d : Digital).
Implicit Types (cur : gmap InputDeviceMapping bool) (k : InputDeviceMapping).

(** X11.  The tick compares the strength after its conversion to [int],
    the detection compares the strength itself.  With a positive threshold,
    a strength that truncates to 0 (one strictly between -1 and 1) releases
    a digital target in the tick and never presses it; yet when it is above
    the threshold the detection returns its input. *)
Theorem strength_truncated s d e cur k :
  to_int s = Some 0 ->
  ltb zero input_detect_threshold = true ->
  e ∉ analog_inputs ->
  (exists d', edge_detect s d e = Some d'
     /\ pressed (d_keys d') e = false
     /\ d_pad d' = if pressed (d_keys d) e then pad_clear (d_pad d) e
                   else d_pad d)
  /\ (gtb s input_detect_threshold = true -> cur !! k <> Some true ->
      detect_sample cur (k, s) = inl k).
Proof.
  intros Hs Hthr Hna. split.
  - unfold edge_detect. rewrite bool_decide_eq_false_2 by done.
    unfold abs_strength. rewrite Hs. simpl.
    change (of_Z (Z.abs 0)) with zero.
    eexists. split; [reflexivity|]. split.
    + rewrite edge_latch_pressed, decide_True by done.
      unfold latch_after, side. by rewrite Hthr.
    + destruct (edge_latch_cases zero d e)
        as [(-> & Hl & _)|[(_ & -> & -> & _)|(_ & Hlt & _)]]; [|done|congruence].
      unfold latch_after, side in Hl. rewrite Hthr in Hl. by rewrite <- Hl.
  - intros Hgt Hcur. unfold detect_sample, flag_at. cbn [fst snd].
    rewrite Hgt. by destruct (cur !! k) as [[]|].
Qed.

Lemma detect_sample_nan cur k : detect_sample cur (k, S754_nan) = inr cur.
Proof.
  destruct (nan_sides input_detect_threshold) as (Hlt & Hgt & _).
  unfold detect_sample. cbn [fst snd]. by rewrite Hgt, Hlt.
Qed.

(** X12.  A strength without a value as an [int] (a NaN, an infinity, a
    value out of the range of [int]) on an input that has a digital target
    leaves the tick without a defined result; a detection round whose
    samples are all NaN finds nothing and keeps the baseline. *)
Theorem undefined_strength (V : Values) (inputs : list Snapshot)
    (c : InputCore) cur :
  (exists snap b e, snap ∈ inputs /\ b ∈ snap /\ abs_strength b.2 = None
     /\ e ∈ targets_of (key_mappings c) b.1 /\ e ∉ analog_inputs) ->
  UpdateEmulatorInputs V inputs c = None
  /\ ((forall snap b, snap ∈ inputs -> b ∈ snap -> b.2 = S754_nan) ->
      detect_devices cur inputs = inr cur).
Proof.
  intros (snap & b & e & Hsnap & Hb & Hs & He & Hna). split.
  - unfold UpdateEmulatorInputs.
    pose proof (analog_pass_targets V inputs (key_mappings c)) as Ht.
    destruct (analog_pass V inputs (key_mappings c)) as [a km].
    cbn [snd] in Ht.
    destruct (set_circle_pad V a) as [cp|]; [|done]. simpl.
    set (d := {| d_pad := pad_state c; d_keys := keys_pressed c;
                 d_map := km |}).
    destruct (digital_pass inputs d) as [d'|] eqn:Hd; [|done]. exfalso.
    rewrite digital_pass_steps in Hd.
    destruct (run_steps (tick_steps (d_map d) inputs) d) as [r|] eqn:Hr;
      [|done].
    assert (Forall defined_step (tick_steps (d_map d) inputs)) as Hdef.
    { apply (run_steps_defined _ d). by eexists. }
    rewrite Forall_forall in Hdef. destruct (Hdef (b.2, e)) as [?|[? Hs']].
    + unfold tick_steps. apply list_elem_of_In, in_flat_map. exists b. split.
      * apply list_elem_of_In, elem_of_concat. by exists snap.
      * apply in_map, list_elem_of_In. cbn [d_map d]. by rewrite Ht.
    + done.
    + simpl in Hs'. congruence.
  - intros Hnan. rewrite detect_devices_concat.
    assert (Forall (fun b => b.2 = S754_nan) (concat inputs)) as Hall.
    { apply Forall_forall. intros b' Hb'.
      apply elem_of_concat in Hb' as (snap' & Hsnap' & Hb').
      by apply (Hnan snap'). }
    induction Hall as [|[k s] l Hks Hl IH]; simpl; [done|].
    simpl in Hks. subst s. by rewrite detect_sample_nan.
Qed.

(** X13.  A pad state injected with [SetPadState] does not change the latch:
    when the injected state clears the bits of a target that is latched as
    pressed, a tick in which the input is still held (the absolute value of
    its strength as an [int] is at or above the threshold) does not set them
    again. *)
Theorem SetPadState_held (V : Values) (c c' : InputCore) state k s a e :
  key_mappings c !! k = Some [e] ->
  keys_pressed c !! e = Some true ->
  abs_strength s = Some a ->
  geb a input_detect_threshold = true ->
  UpdateEmulatorInputs V [[(k, s)]] (SetPadState state c) = Some c' ->
  GetPadState c' = state /\ keys_pressed c' !! e = Some true.
Proof.
  intros Hk He Ha Hge. unfold UpdateEmulatorInputs, GetPadState.
  pose proof (analog_snapshots_lookup V [[(k, s)]] k [e]
                ({| left_x := zero; left_y := zero;
                    circle_pad_modifier := one |},
                 key_mappings (SetPadState state c)) Hk) as Hkm.
  fold (analog_pass V [[(k, s)]] (key_mappings (SetPadState state c))) in Hkm.
  destruct (analog_pass V [[(k, s)]] _) as [a0 km]. cbn [snd] in Hkm.
  destruct (set_circle_pad V a0) as [cp|]; [|done]. simpl.
  set (d := {| d_pad := pad_state (SetPadState state c);
               d_keys := keys_pressed (SetPadState state c); d_map := km |}).
  assert (pressed (d_keys d) e = true) as Hp by by apply pressed_true.
  rewrite (digital_pass_single d k s e) by done.
  unfold edge_detect. case_bool_decide.
  { simpl. intros [= <-]. cbn [pad_state keys_pressed d d_pad d_keys].
    split; [by destruct state|done]. }
  rewrite Ha. simpl. intros [= <-]. cbn [pad_state keys_pressed].
  destruct (edge_latch_cases a d e)
    as [(-> & _ & Hkeys)|[(Hlt & _)|(_ & _ & Hp' & _)]].
  - split; [by destruct state|]. apply pressed_true. by rewrite Hkeys.
  - by rewrite (geb_not_ltb _ _ Hge) in Hlt.
  - congruence.
Qed.

End Boundary.

Lemma strength_truncated_witness :
  let d := {| d_pad := HID.PAD_A; d_keys := {[ HID.PAD_A := true ]};
              d_map := Citra.table |} in
  (exists d', edge_detect (HD := Citra.headers) (of_ratio 9 10) d HID.PAD_A
              = Some d'
     /\ pressed (d_keys d') HID.PAD_A = false
     /\ d_pad d' = if pressed (d_keys d) HID.PAD_A
                   then pad_clear (d_pad d) HID.PAD_A else d_pad d)
  /\ detect_sample (HD := Citra.headers) ∅ (Citra.KeyA, of_ratio 9 10)
     = inl Citra.KeyA.
Proof.
  intros d.
  destruct (strength_truncated (HD := Citra.headers) (of_ratio 9 10) d
              HID.PAD_A ∅ Citra.KeyA) as [Htick Hdetect].
  - vm_compute. reflexivity.
  - vm_compute. reflexivity.
  - intros Hin. vm_compute in Hin.
    repeat (apply elem_of_cons in Hin as [Hin|Hin]; [discriminate|]).
    by apply elem_of_nil in Hin.
  - split; [exact Htick|]. apply Hdetect.
    + vm_compute. reflexivity.
    + rewrite lookup_empty. discriminate.
Defined.

Lemma undefined_strength_witness :
  let inputs := [[(Citra.KeyA, S754_nan); (Citra.KeyB, S754_nan)]] in
  UpdateEmulatorInputs (HD := Citra.headers) Citra.values inputs Citra.held
  = None
  /\ detect_devices (HD := Citra.headers) ∅ inputs = inr ∅.
Proof.
  intros inputs.
  destruct (undefined_strength (HD := Citra.headers) Citra.values inputs
              Citra.held ∅) as [Htick Hdetect].
  - exists [(Citra.KeyA, S754_nan); (Citra.KeyB, S754_nan)],
      (Citra.KeyA, S754_nan), HID.PAD_A.
    split; [by apply list_elem_of_singleton|].
    split; [by left|]. split; [reflexivity|].
    split; [vm_compute; by left|].
    intros Hin. vm_compute in Hin.
    repeat (apply elem_of_cons in Hin as [Hin|Hin]; [discriminate|]).
    by apply elem_of_nil in Hin.
  - split; [exact Htick|]. apply Hdetect.
    intros snap b Hsnap Hb. apply list_elem_of_singleton in Hsnap. subst snap.
    apply elem_of_cons in Hb as [->|Hb]; [reflexivity|].
    apply list_elem_of_singleton in Hb. by subst b.
Defined.

Lemma SetPadState_held_witness :
  exists c',
    UpdateEmulatorInputs (HD := Citra.headers) Citra.values
      [[(Citra.KeyA, one)]] (SetPadState {| hex := 0 |} Citra.held) = Some c'
    /\ GetPadState c' = {| hex := 0 |}
    /\ keys_pressed c' !! HID.PAD_A = Some true.
Proof.
  eexists. split; [vm_compute; reflexivity|].
  eapply (SetPadState_held (HD := Citra.headers) Citra.values Citra.held _
            {| hex := 0 |} Citra.KeyA one one HID.PAD_A).
  - vm_compute. reflexivity.
  - vm_compute. reflexivity.
  - vm_compute. reflexivity.
  - vm_compute. reflexivity.
  - vm_compute. reflexivity.
Defined.

(** ** Mapping table and device registry *)

Section Registry.

Context `{HD : Headers}.

Implicit Types (km : gmap InputDeviceMapping (list PadState)).
Implicit Types (k m x y : InputDeviceMapping) (V : Values).
Implicit Types (u : list InputDeviceMapping).

Lemma BuildKeyMapping_from_out_of_range (keys : list InputDeviceMapping) :
  forall (i : nat) km,
    (i <= length mapping_targets)%nat ->
    (length mapping_targets < i + length keys)%nat ->
    BuildKeyMapping_from i keys km = None.
Proof.
  induction keys as [|key keys IH]; intros i km Hi Hlen; simpl in *; [lia|].
  destruct (mapping_targets !! i) as [val|] eqn:Hval; simpl; [|done].
  apply lookup_lt_Some in Hval. apply IH; lia.
Qed.

(** X14.  Building the mapping table goes wrong in one way only: a
    configured mapping beyond the end of [mapping_targets]. *)
Theorem ParseSettings_defined V (c : InputCore) :
  is_Some (ParseSettings V c)
  <-> (length (input_mappings V) <= length mapping_targets)%nat.
Proof.
  unfold ParseSettings, BuildKeyMapping.
  destruct (GenerateUniqueDevices V (main_keyboard c)) as [devs kb].
  split.
  - intros [c' Hc'].
    destruct (decide (length (input_mappings V) <= length mapping_targets)%nat)
      as [|Hgt]; [done|].
    rewrite BuildKeyMapping_from_out_of_range in Hc' by (simpl; lia). done.
  - intros Hlen.
    destruct (BuildKeyMapping_from_total (input_mappings V) 0 ∅ Hlen)
      as [km ->].
    by eexists.
Qed.

Lemma BuildKeyMapping_from_lookup (keys : list InputDeviceMapping) :
  forall (i : nat) km0 km,
    BuildKeyMapping_from i keys km0 = Some km ->
    forall k,
      targets_of km k
      = targets_of km0 k
        ++ (filter (fun p => p.1 = k) (zip keys (drop i mapping_targets))).*2
      /\ (is_Some (km !! k) <-> is_Some (km0 !! k) \/ k ∈ keys).
Proof.
  induction keys as [|key keys IH]; intros i km0 km Hb k; simpl in Hb.
  - simplify_eq. simpl. rewrite app_nil_r. split; [done|].
    split; [by left|]. intros [?|Hin]; [done|]. by apply elem_of_nil in Hin.
  - destruct (mapping_targets !! i) as [val|] eqn:Hval; simpl in Hb; [|done].
    destruct (IH _ _ _ Hb k) as [Ht Hs].
    rewrite (drop_S _ _ _ Hval). simpl. split.
    + rewrite Ht. unfold targets_of at 1.
      destruct (decide (key = k)) as [->|Hne].
      * rewrite filter_cons_True by done. rewrite lookup_insert_eq. simpl.
        unfold targets_of. by rewrite <- app_assoc.
      * rewrite filter_cons_False by done. by rewrite lookup_insert_ne.
    + rewrite Hs. rewrite elem_of_cons.
      destruct (decide (key = k)) as [->|Hne].
      * rewrite lookup_insert_eq. split; [intros _|]; [right; by left|].
        intros _. left. by eexists.
      * rewrite lookup_insert_ne by done.
        split; [intros [?|?]; [by left|by right; right]|].
        intros [?|[?|?]]; [by left|done|by right].
Qed.

(** X15.  The mapping table that is built: an input has an entry exactly
    when it is among the input mappings, and its entry lists, in the order
    of the settings, the targets at the positions where it is configured. *)
Theorem BuildKeyMapping_lookup V km k :
  BuildKeyMapping V = Some km ->
  targets_of km k = configured_targets V k
  /\ (is_Some (km !! k) <-> k ∈ input_mappings V).
Proof.
  intros Hb. destruct (BuildKeyMapping_from_lookup _ _ _ _ Hb k) as [Ht Hs].
  split; [by rewrite Ht|]. rewrite Hs, lookup_empty.
  split; [intros [[? ?]|?]; done|by right].
Qed.

Lemma set_insert_cases x u :
  set_insert x u = u \/ set_insert x u ≡ₚ x :: u.
Proof.
  induction u as [|y u IH]; simpl; [by right|].
  destruct (mapping_lt x y); [by right|].
  destruct (mapping_lt y x); [|by left].
  destruct IH as [->|Hp]; [by left|]. right.
  rewrite Hp. apply Permutation_swap.
Qed.

Lemma set_insert_nonempty x u : set_insert x u <> [].
Proof.
  destruct u as [|y u]; simpl; [done|].
  destruct (mapping_lt x y); [done|]. by destruct (mapping_lt y x).
Qed.

Lemma CheckIfMappingExists_nonempty u m :
  CheckIfMappingExists u m = true -> u <> [].
Proof. by destruct u. Qed.

(** There is always a mapping to make a device for: the modifier is added
    when nothing equal to it is there. *)
Lemma GatherUniqueMappings_nonempty V : GatherUniqueMappings V <> [].
Proof.
  unfold GatherUniqueMappings.
  destruct (CheckIfMappingExists _ (pad_circle_modifier V)) eqn:Hc.
  - by apply CheckIfMappingExists_nonempty in Hc.
  - apply set_insert_nonempty.
Qed.

Lemma GenerateUniqueDevices_fold u : forall devs kb,
  fold_left
    (fun '(devs, kb) mapping =>
       let input := make_device mapping in
       (devs ++ [input],
        match dev_class input with
        | KeyboardDevice => Some input
        | SDLJoystickDevice => kb
        end))
    u (devs, kb)
  = (devs ++ (make_device <$> u),
     fold_left
       (fun kb mapping =>
          match dev_class (make_device mapping) with
          | KeyboardDevice => Some (make_device mapping)
          | SDLJoystickDevice => kb
          end) u kb).
Proof.
  induction u as [|m u IH]; intros devs kb; simpl.
  - by rewrite app_nil_r.
  - rewrite IH. by rewrite <- app_assoc.
Qed.

Lemma GenerateUniqueDevices_devices V kb :
  (GenerateUniqueDevices V kb).1 = make_device <$> GatherUniqueMappings V.
Proof. unfold GenerateUniqueDevices. by rewrite GenerateUniqueDevices_fold. Qed.

Lemma GenerateUniqueDevices_again V kb :
  GenerateUniqueDevices V (GenerateUniqueDevices V kb).2
  = GenerateUniqueDevices V kb.
Proof.
  unfold GenerateUniqueDevices. rewrite !GenerateUniqueDevices_fold.
  cbn [snd]. f_equal.
  induction (GatherUniqueMappings V) as [|m u IH] using rev_ind; [done|].
  rewrite !fold_left_app. cbn [fold_left].
  destruct (dev_class (make_device m)); [done|]. apply IH.
Qed.

(** What [ParseSettings] builds has a device, and parsing again from the
    state it built, with the registry emptied, builds the same state. *)
Lemma ParseSettings_again V (c c1 : InputCore) :
  ParseSettings V c = Some c1 ->
  devices c1 <> [] /\ ParseSettings V (Shutdown c1) = Some c1.
Proof.
  unfold ParseSettings. intros Hi.
  pose proof (GenerateUniqueDevices_devices V (main_keyboard c)) as Hd.
  pose proof (GenerateUniqueDevices_again V (main_keyboard c)) as Hagain.
  destruct (GenerateUniqueDevices V (main_keyboard c)) as [devs kb].
  cbn [fst snd] in Hd, Hagain.
  destruct (BuildKeyMapping V) as [km|] eqn:Hkm; [|done]. simpl in Hi.
  injection Hi as <-.
  assert (devs <> []) as Hne.
  { rewrite Hd. intros Hnil. apply fmap_nil_inv in Hnil.
    by apply (GatherUniqueMappings_nonempty V). }
  split; [done|].
  cbn [Shutdown main_keyboard keys_pressed pad_state circle_pad].
  by rewrite Hagain.
Qed.

(** X17.  After [Init] the registry is never empty, so the guard of
    [ReloadSettings] lets the reload through; and a reload under the
    settings of the [Init] rebuilds the very same state. *)
Theorem Init_then_Reload V (c c1 : InputCore) :
  Init V c = Some c1 ->
  devices c1 <> [] /\ ReloadSettings V c1 = Some c1.
Proof.
  unfold Init. intros Hi.
  destruct (ParseSettings_again V c c1 Hi) as [Hne Hagain].
  split; [done|]. unfold ReloadSettings.
  rewrite bool_decide_eq_false_2 by done. exact Hagain.
Qed.

Lemma set_insert_elem x u m :
  m ∈ set_insert x u -> m = x \/ m ∈ u.
Proof.
  destruct (set_insert_cases x u) as [->|Hp]; [by right|].
  rewrite Hp. by rewrite elem_of_cons.
Qed.

Lemma set_insert_keeps x u m : m ∈ u -> m ∈ set_insert x u.
Proof.
  destruct (set_insert_cases x u) as [->|Hp]; [done|].
  rewrite Hp. by right.
Qed.

Section DeviceIdentity.

(** [operator==] is the identity of the device a mapping needs, and two
    mappings that [operator<] does not order are equal. *)
Hypothesis eq_device : forall x y,
  mapping_eq x y = true <-> make_device x = make_device y.
Hypothesis lt_total : forall x y,
  mapping_lt x y = false -> mapping_lt y x = false -> mapping_eq y x = true.

Lemma CheckIfMappingExists_device u m :
  CheckIfMappingExists u m = true
  <-> make_device m ∈ make_device <$> u.
Proof.
  unfold CheckIfMappingExists. rewrite existsb_exists, list_elem_of_fmap.
  split.
  - intros (y & Hy & Heq). exists y. apply eq_device in Heq.
    by rewrite list_elem_of_In.
  - intros (y & Heq & Hy). exists y. rewrite <- list_elem_of_In.
    split; [done|]. by apply eq_device.
Qed.

Lemma set_insert_covers x u :
  make_device x ∈ make_device <$> set_insert x u.
Proof.
  induction u as [|y u IH]; simpl.
  - by left.
  - destruct (mapping_lt x y) eqn:Hxy; [by left|].
    destruct (mapping_lt y x) eqn:Hyx; [by right|].
    pose proof (lt_total x y Hxy Hyx) as Heq. apply eq_device in Heq.
    rewrite <- Heq. by left.
Qed.

(** The invariant of the set of unique mappings: no two of them need the
    same device, and the devices they need are those of the mappings seen
    so far. *)
Lemma unique_step u x (seen : list InputDeviceMapping) :
  NoDup (make_device <$> u) ->
  (forall dev, dev ∈ make_device <$> u <-> dev ∈ make_device <$> seen) ->
  let u' := if CheckIfMappingExists u x then u else set_insert x u in
  NoDup (make_device <$> u')
  /\ (forall dev, dev ∈ make_device <$> u'
        <-> dev ∈ make_device <$> (seen ++ [x])).
Proof.
  intros Hnd Hdev u'. subst u'.
  assert (forall dev, dev ∈ make_device <$> (seen ++ [x])
            <-> dev ∈ make_device <$> u \/ dev = make_device x) as Hseen.
  { intros dev. rewrite fmap_app, elem_of_app, <- Hdev. simpl.
    by rewrite list_elem_of_singleton. }
  destruct (CheckIfMappingExists u x) eqn:Hc.
  - split; [done|]. intros dev. rewrite Hseen.
    apply CheckIfMappingExists_device in Hc.
    split; [by left|]. intros [?|Heq]; [done|]. by subst dev.
  - assert (make_device x ∉ make_device <$> u) as Hnew.
    { intros Hin. apply CheckIfMappingExists_device in Hin. congruence. }
    destruct (set_insert_cases x u) as [Heq|Hp].
    + exfalso. apply Hnew. rewrite <- Heq. apply set_insert_covers.
    + rewrite Hp. split.
      * rewrite fmap_cons. by apply NoDup_cons.
      * intros dev. rewrite Hp, Hseen, fmap_cons, elem_of_cons. tauto.
Qed.

Lemma unique_fold (l : list InputDeviceMapping) : forall u seen,
  NoDup (make_device <$> u) ->
  (forall dev, dev ∈ make_device <$> u <-> dev ∈ make_device <$> seen) ->
  let u' :=
    fold_left
      (fun unique_mappings mapping =>
         if CheckIfMappingExists unique_mappings mapping then unique_mappings
         else set_insert mapping unique_mappings) l u in
  NoDup (make_device <$> u')
  /\ (forall dev, dev ∈ make_device <$> u'
        <-> dev ∈ make_device <$> (seen ++ l)).
Proof.
  induction l as [|x l IH]; intros u seen Hnd Hdev; simpl.
  - by rewrite app_nil_r.
  - destruct (unique_step u x seen Hnd Hdev) as [Hnd' Hdev'].
    destruct (IH _ _ Hnd' Hdev') as [Hnd'' Hdev''].
    split; [done|]. intros dev. rewrite Hdev''. by rewrite <- app_assoc.
Qed.

(** X16.  The registry that is built holds exactly the devices the
    configured mappings need, each of them once. *)
Theorem ParseSettings_devices V (c c1 : InputCore) :
  ParseSettings V c = Some c1 ->
  NoDup (devices c1)
  /\ forall dev, dev ∈ devices c1
       <-> exists m, configured V m /\ dev = make_device m.
Proof.
  unfold ParseSettings. intros Hp.
  pose proof (GenerateUniqueDevices_devices V (main_keyboard c)) as Hd.
  destruct (GenerateUniqueDevices V (main_keyboard c)) as [devs kb].
  cbn [fst] in Hd.
  destruct (BuildKeyMapping V) as [km|]; [|done]. simpl in Hp.
  injection Hp as <-. cbn [devices]. subst devs.
  unfold GatherUniqueMappings.
  destruct (unique_fold (input_mappings V) [] []) as [Hnd Hdev];
    [constructor|done|].
  simpl in Hdev.
  match goal with |- context [fold_left ?f (input_mappings V) []] =>
    set (u := fold_left f (input_mappings V) []) in * end.
  destruct (unique_step u (pad_circle_modifier V) (input_mappings V) Hnd Hdev)
    as [Hnd' Hdev'].
  split; [done|]. intros dev. rewrite Hdev'.
  rewrite list_elem_of_fmap. unfold configured.
  split; intros (m & Hm1 & Hm2).
  - exists m. split; [|done]. apply elem_of_app in Hm2 as [?|Hm2]; [by left|].
    apply list_elem_of_singleton in Hm2. by right.
  - exists m. split; [done|]. rewrite elem_of_app, list_elem_of_singleton.
    done.
Qed.

End DeviceIdentity.

End Registry.

(** ** Detection: what is returned, and when *)

Section DetectionMore.

Context `{HD : Headers}.

Implicit Types (cur : gmap InputDeviceMapping bool) (k : InputDeviceMapping).
Implicit Types (s : f32) (i : InputDeviceMapping * f32) (l : Snapshot).

(** The loop never records an input as active: only the baseline does. *)
Lemma detect_sample_never_arms cur cur' i k :
  detect_sample cur i = inr cur' ->
  cur' !! k = Some true -> cur !! k = Some true.
Proof.
  unfold detect_sample, flag_at. intros Hd.
  destruct (gtb i.2 input_detect_threshold) eqn:Hgt;
    destruct (ltb i.2 input_detect_threshold) eqn:Hlt;
    destruct (cur !! i.1) as [[]|] eqn:Hc; simpl in Hd;
    repeat (rewrite ?Hc, ?lookup_insert_eq in Hd; simpl in Hd);
    simplify_eq; try done;
    (destruct (decide (i.1 = k)) as [<-|Hne];
     [rewrite ?lookup_insert_eq; congruence
     |by rewrite ?lookup_insert_ne by done]).
Qed.

Lemma detect_sample_below cur i :
  gtb i.2 input_detect_threshold = false ->
  exists cur', detect_sample cur i = inr cur'.
Proof.
  unfold detect_sample. intros ->.
  destruct (ltb i.2 input_detect_threshold); [|by eexists].
  destruct (flag_at i.1 cur) as [[] cur1]; by eexists.
Qed.

Lemma detect_samples_below l : forall cur k,
  Forall (fun i => gtb i.2 input_detect_threshold = false) l ->
  exists cur', detect_samples cur l = inr cur'
    /\ (cur' !! k = Some true -> cur !! k = Some true).
Proof.
  induction l as [|i l IH]; intros cur k Hl; simpl; [by eexists|].
  apply Forall_cons in Hl as [Hi Hl].
  destruct (detect_sample_below cur i Hi) as [cur1 Hcur1]. rewrite Hcur1.
  destruct (IH cur1 k Hl) as (cur' & -> & Hk). exists cur'. split; [done|].
  intros Hk'. by eapply detect_sample_never_arms, Hk.
Qed.

Lemma detect_sample_fresh cur k s :
  gtb s input_detect_threshold = true ->
  cur !! k <> Some true ->
  detect_sample cur (k, s) = inl k.
Proof.
  unfold detect_sample, flag_at. cbn [fst snd]. intros -> Hk.
  by destruct (cur !! k) as [[]|].
Qed.

(** A sample below the threshold leaves its input recorded as inactive. *)
Lemma detect_sample_dip cur k s :
  ltb s input_detect_threshold = true ->
  exists cur', detect_sample cur (k, s) = inr cur' /\ cur' !! k = Some false.
Proof.
  unfold detect_sample, flag_at. cbn [fst snd]. intros Hlt.
  assert (gtb s input_detect_threshold = false) as ->.
  { destruct (gtb s input_detect_threshold) eqn:Hgt; [|done].
    by rewrite (gtb_not_ltb _ _ Hgt) in Hlt. }
  rewrite Hlt.
  destruct (cur !! k) as [[]|] eqn:Hc; simpl; eexists; split; try done;
    by rewrite ?lookup_insert_eq.
Qed.

(** X19.  What the detection can return: an input that was polled above the
    threshold, or the default-constructed mapping; the latter, once the loop
    is entered, only when the time-out was reached. *)
Theorem DetectInput_result (max_time : Z) (baseline : list Snapshot)
    (rounds : list Round) k :
  DetectInput max_time baseline rounds = Some k ->
  (exists s, (k, s) ∈ polled_stream max_time rounds
      /\ gtb s input_detect_threshold = true)
  \/ (k = default_mapping
      /\ (timed_out max_time rounds = true
          \/ key default_mapping <> EmptyString)).
Proof.
  unfold DetectInput. intros Hd.
  destruct (decide (key default_mapping = EmptyString)) as [Hkey|Hkey].
  - rewrite detect_loop_stream in Hd by done.
    destruct (detect_samples _ (polled_stream max_time rounds))
      as [found|cur1] eqn:Hscan.
    + simplify_eq. left.
      apply detect_samples_inl in Hscan as (pre & s & post & _ & -> & Hgt & _).
      exists s. split; [|done]. rewrite elem_of_app. right. by left.
    + right. destruct (timed_out max_time rounds); [|done].
      simplify_eq. split; [done|by left].
  - rewrite detect_loop_entered in Hd by done. simplify_eq.
    right. split; [done|by right].
Qed.

Lemma detect_samples_never_arms l : forall cur cur' k,
  detect_samples cur l = inr cur' ->
  cur' !! k = Some true -> cur !! k = Some true.
Proof.
  induction l as [|i l IH]; intros cur cur' k Hd Hk; simpl in Hd.
  - by simplify_eq.
  - destruct (detect_sample cur i) as [found|cur1] eqn:Hi; [done|].
    eapply detect_sample_never_arms; [done|]. by eapply IH.
Qed.

(** After a scan that passed a sample of [k] below the threshold, [k] is
    not recorded as active. *)
Lemma detect_samples_dipped l cur cur' k s0 :
  detect_samples cur l = inr cur' ->
  (k, s0) ∈ l -> ltb s0 input_detect_threshold = true ->
  cur' !! k <> Some true.
Proof.
  intros Hd Hin Hlt Hk.
  apply list_elem_of_split in Hin as (l1 & l2 & ->).
  rewrite detect_samples_app in Hd.
  destruct (detect_samples cur l1) as [|cur1]; [done|]. simpl in Hd.
  destruct (detect_sample_dip cur1 k s0 Hlt) as (cur2 & Hcur2 & Hk2).
  rewrite Hcur2 in Hd.
  pose proof (detect_samples_never_arms _ _ _ k Hd Hk). congruence.
Qed.

(** X20.  A press is detected. Let the polled samples up to some sample of
    [k] above the threshold be quiet: each of them that is above the
    threshold belongs to an input active at the baseline and not polled
    below the threshold among them. Then [k] is returned, if it was not
    active at the baseline or one of those samples shows it below the
    threshold. *)
Theorem DetectInput_detects (max_time : Z) (baseline : list Snapshot)
    (rounds : list Round) (pre post : Snapshot) k s :
  key default_mapping = EmptyString ->
  polled_stream max_time rounds = pre ++ (k, s) :: post ->
  gtb s input_detect_threshold = true ->
  (forall k' s', (k', s') ∈ pre ->
     gtb s' input_detect_threshold = true ->
     baseline_states baseline !! k' = Some true
     /\ forall s'', (k', s'') ∈ pre ->
          ltb s'' input_detect_threshold = false) ->
  (baseline_states baseline !! k <> Some true
   \/ exists s0, (k, s0) ∈ pre /\ ltb s0 input_detect_threshold = true) ->
  DetectInput max_time baseline rounds = Some k.
Proof.
  intros Hkey Hstream Hgt Hquiet Hfree. unfold DetectInput.
  rewrite detect_loop_stream, Hstream, detect_samples_app by done.
  set (held := fun k' => baseline_states baseline !! k' = Some true
                 /\ forall s'', (k', s'') ∈ pre ->
                      ltb s'' input_detect_threshold = false).
  destruct (detect_samples_quiet held pre)
    with (cur := baseline_states baseline) as [cur' Hscan].
  - intros k' s' Hin Hgt'. by apply Hquiet with s'.
  - intros k' s' Hin Hlt [_ Hnever]. rewrite (Hnever s' Hin) in Hlt. done.
  - by intros k' [Hb _].
  - rewrite Hscan. simpl. rewrite detect_sample_fresh; [done..|].
    intros Hk. destruct Hfree as [Hb|(s0 & Hin & Hlt)].
    + by apply Hb, (detect_samples_never_arms pre _ cur').
    + by apply (detect_samples_dipped pre (baseline_states baseline) cur'
                  k s0).
Qed.


End DetectionMore.

(** ** Deadzone normaliser: mirror symmetry *)

Lemma binary_round_aux_opp (s : bool) (m e : Z) (l : location) :
  binary_round_aux prec emax (negb s) m e l
  = SFopp (binary_round_aux prec emax s m e l).
Proof.
  unfold binary_round_aux.
  destruct (shr_fexp prec emax m e l) as [mrs' e'].
  match goal with |- context [shr_fexp prec emax ?m1 e' loc_Exact] =>
    destruct (shr_fexp prec emax m1 e' loc_Exact) as [mrs'' e''] end.
  destruct (shr_m mrs''); simpl; try done.
  by destruct (e'' <=? emax - prec).
Qed.

Lemma neg_neg (x : f32) : neg (neg x) = x.
Proof. unfold neg. destruct x; simpl; by rewrite ?negb_involutive. Qed.

Lemma mul_neg_l (x y : f32) : mul (neg x) y = neg (mul x y).
Proof.
  unfold mul, neg.
  destruct x as [sx|sx| |sx mx ex], y as [sy|sy| |sy my ey]; simpl;
    rewrite <- ?negb_xorb_l; try done.
  apply binary_round_aux_opp.
Qed.

Lemma mul_neg_r (x y : f32) : mul x (neg y) = neg (mul x y).
Proof.
  unfold mul, neg.
  destruct x as [sx|sx| |sx mx ex], y as [sy|sy| |sy my ey]; simpl;
    rewrite <- ?negb_xorb_r; try done.
  apply binary_round_aux_opp.
Qed.

Lemma div_neg_l (x y : f32) : div (neg x) y = neg (div x y).
Proof.
  unfold div, neg.
  destruct x as [sx|sx| |sx mx ex], y as [sy|sy| |sy my ey]; simpl;
    rewrite <- ?negb_xorb_l; try done.
  destruct (SFdiv_core_binary prec emax (Z.pos mx) ex (Z.pos my) ey)
    as [[mz ez] lz].
  apply binary_round_aux_opp.
Qed.

Lemma magnitude_neg_l (x y : f32) : magnitude (neg x) y = magnitude x y.
Proof. unfold magnitude. by rewrite mul_neg_l, mul_neg_r, neg_neg. Qed.

Lemma magnitude_neg_r (x y : f32) : magnitude x (neg y) = magnitude x y.
Proof. unfold magnitude. by rewrite mul_neg_l, mul_neg_r, neg_neg. Qed.

(** X2.  Mirroring the input mirrors the output: negating one coordinate
    negates that coordinate of the result and leaves the other one, whenever
    the input is rescaled; inside the deadzone both give [(0, 0)]. *)
Theorem ApplyDeadzone_mirror (x y dead_zone : f32) :
  let r := ApplyDeadzone x y dead_zone in
  ApplyDeadzone (neg x) y dead_zone
    = (if rescales x y dead_zone then (neg r.1, r.2) else r)
  /\ ApplyDeadzone x (neg y) dead_zone
    = (if rescales x y dead_zone then (r.1, neg r.2) else r).
Proof.
  unfold ApplyDeadzone, rescales.
  rewrite magnitude_neg_l, magnitude_neg_r.
  destruct (ltb (magnitude x y) dead_zone); simpl; [done|].
  by rewrite !div_neg_l, !mul_neg_l.
Qed.

(** ** Life cycle *)

(** X18.  [Shutdown] empties the registry; a reload then does nothing, and
    only [Init] builds the registry again, the same as before. *)
Theorem Shutdown_then_Init `{HD : Headers} (V : Values) (c c1 : InputCore) :
  Init V c = Some c1 ->
  devices (Shutdown c1) = []
  /\ ReloadSettings V (Shutdown c1) = Some (Shutdown c1)
  /\ Init V (Shutdown c1) = Some c1.
Proof.
  unfold Init. intros Hi.
  destruct (ParseSettings_again V c c1 Hi) as [_ Hagain].
  split; [done|]. split; [|exact Hagain].
  unfold ReloadSettings. by rewrite bool_decide_eq_true_2.
Qed.

(** ** The properties on the configuration *)

Lemma Citra_directions :
  PAD_CIRCLE_RIGHT (Headers := Citra.headers)
    <> PAD_CIRCLE_UP (Headers := Citra.headers)
  /\ PAD_CIRCLE_RIGHT (Headers := Citra.headers)
    <> PAD_CIRCLE_DOWN (Headers := Citra.headers)
  /\ PAD_CIRCLE_RIGHT (Headers := Citra.headers)
    <> PAD_CIRCLE_LEFT (Headers := Citra.headers).
Proof. repeat split; discriminate. Qed.

Lemma Citra_eq_device (x y : InputDeviceMapping) :
  mapping_eq (Headers := Citra.headers) x y = true
  <-> make_device x = make_device y.
Proof.
  simpl. unfold Citra.same_device. rewrite bool_decide_eq_true.
  destruct x as [[] nx [] kx], y as [[] ny [] ky]; simpl;
    split; try (intros (? & ? & ?)); try intros [=]; subst; done.
Qed.

Lemma Citra_lt_total (x y : InputDeviceMapping) :
  mapping_lt (Headers := Citra.headers) x y = false ->
  mapping_lt (Headers := Citra.headers) y x = false ->
  mapping_eq (Headers := Citra.headers) y x = true.
Proof.
  simpl. unfold Citra.lt, Citra.same_device.
  destruct x as [[] nx dx kx], y as [[] ny dy ky]; simpl.
  rewrite (Z.compare_antisym nx ny).
  destruct (nx ?= ny) eqn:Hn; simpl; try done.
  apply Z.compare_eq in Hn. subst ny.
  destruct dx, dy; try done; intros _ _; by apply bool_decide_eq_true.
Qed.

Lemma Citra_sample_cases (a b : InputDeviceMapping * f32)
    (snap : Snapshot) (i : InputDeviceMapping * f32) :
  snap ∈ [[a; b]] -> i ∈ snap -> i = a \/ i = b.
Proof.
  intros Hsnap Hi. apply list_elem_of_singleton in Hsnap. subst snap.
  apply elem_of_cons in Hi as [->|Hi]; [by left|].
  apply list_elem_of_singleton in Hi. by right.
Qed.

Lemma UpdateEmulatorInputs_nan_witness :
  UpdateEmulatorInputs (HD := Citra.headers) Citra.values
    ([] ++ [[(Citra.KeyA, one)] ++ [(Citra.KeyRight, S754_nan)]]) Citra.held
  = None.
Proof.
  destruct Citra_directions as (Hu & Hd & Hl).
  apply (UpdateEmulatorInputs_nan (HD := Citra.headers) Citra.values []
           [(Citra.KeyA, one)] Citra.KeyRight Citra.held Hu Hd Hl).
  vm_compute. reflexivity.
Defined.

Lemma idle_tick_centres_witness :
  exists c',
    UpdateEmulatorInputs (HD := Citra.headers) Citra.values
      [[(Citra.KeyA, zero); (Citra.KeyUp, S754_zero true)]] Citra.held = Some c'
    /\ circle_pad c' = (0, 0).
Proof.
  apply (idle_tick_centres (HD := Citra.headers)).
  - simpl. lia.
  - vm_compute. reflexivity.
  - intros snap b Hsnap Hb.
    destruct (Citra_sample_cases _ _ _ _ Hsnap Hb) as [-> | ->];
      split; vm_compute; reflexivity.
Defined.

Lemma idle_tick_zero_deadzone_witness :
  UpdateEmulatorInputs (HD := Citra.headers) Sessions.no_deadzone []
    Citra.held = None.
Proof.
  apply (idle_tick_zero_deadzone (HD := Citra.headers)).
  - reflexivity.
  - intros snap b Hsnap. by apply elem_of_nil in Hsnap.
Defined.

Lemma UpdateEmulatorInputs_table_witness :
  exists c',
    UpdateEmulatorInputs (HD := Citra.headers) Citra.values
      [[(Citra.KeyA, one); (Citra.Button0, zero)]] Citra.held = Some c'
    /\ devices c' = devices Citra.held
    /\ is_Some (key_mappings c' !! Citra.Button0)
    /\ targets_of (key_mappings c') Citra.Button0 = [].
Proof.
  eexists. split; [vm_compute; reflexivity|].
  match goal with |- devices ?c1 = _ /\ _ =>
    destruct (UpdateEmulatorInputs_table (HD := Citra.headers) Citra.values
                [[(Citra.KeyA, one); (Citra.Button0, zero)]] Citra.held c1)
      as (Hd & _ & Hin & _ & Ht) end.
  - vm_compute. reflexivity.
  - split; [exact Hd|]. split.
    + apply (Hin [(Citra.KeyA, one); (Citra.Button0, zero)]
               (Citra.Button0, zero)).
      * by left.
      * right. by left.
    + rewrite Ht. vm_compute. reflexivity.
Defined.

Lemma Citra_table_targets (snap : Snapshot) (b : InputDeviceMapping * f32)
    (s1 s2 : f32) (e : PadState) :
  snap ∈ [[(Citra.KeyA, s1); (Citra.KeyB, s2)]] -> b ∈ snap ->
  e ∈ targets_of Citra.table b.1 -> e = HID.PAD_A \/ e = HID.PAD_B.
Proof.
  intros Hsnap Hb He.
  destruct (Citra_sample_cases _ _ _ _ Hsnap Hb) as [-> | ->];
    vm_compute in He; apply list_elem_of_singleton in He; subst e;
    [by left|by right].
Qed.

Lemma press_release_round_trip_witness :
  exists d1 d2,
    digital_pass (HD := Citra.headers) [[(Citra.KeyA, one)]] Sessions.idle
    = Some d1
    /\ digital_pass (HD := Citra.headers) [[(Citra.KeyA, of_ratio 9 10)]] d1
       = Some d2
    /\ d_pad d1 = pad_set (d_pad Sessions.idle) HID.PAD_A
    /\ pressed (d_keys d1) HID.PAD_A = true
    /\ d_pad d2 = d_pad Sessions.idle
    /\ pressed (d_keys d2) HID.PAD_A = false.
Proof.
  apply (press_release_round_trip (HD := Citra.headers) Sessions.idle
           Citra.KeyA HID.PAD_A one (of_ratio 9 10) one zero).
  - vm_compute. reflexivity.
  - intros Hin. vm_compute in Hin.
    repeat (apply elem_of_cons in Hin as [Hin|Hin]; [discriminate|]).
    by apply elem_of_nil in Hin.
  - reflexivity.
  - vm_compute. reflexivity.
  - vm_compute. reflexivity.
  - vm_compute. reflexivity.
  - vm_compute. reflexivity.
  - unfold u32. vm_compute. split; [discriminate|reflexivity].
  - reflexivity.
Defined.

Lemma ParseSettings_defined_witness :
  is_Some (ParseSettings (HD := Citra.headers) Citra.values Citra.fresh).
Proof.
  apply (ParseSettings_defined (HD := Citra.headers)). simpl. lia.
Defined.

Lemma BuildKeyMapping_lookup_witness :
  targets_of Citra.table Citra.KeyUp
    = configured_targets (HD := Citra.headers) Citra.values Citra.KeyUp
  /\ (is_Some (Citra.table !! Citra.KeyUp)
      <-> Citra.KeyUp ∈ input_mappings Citra.values).
Proof.
  apply (BuildKeyMapping_lookup (HD := Citra.headers)).
  vm_compute. reflexivity.
Defined.

Lemma Init_then_Reload_witness :
  exists c1,
    Init (HD := Citra.headers) Citra.values Citra.fresh = Some c1
    /\ devices c1 <> []
    /\ ReloadSettings (HD := Citra.headers) Citra.values c1 = Some c1.
Proof.
  eexists. split; [vm_compute; reflexivity|].
  apply (Init_then_Reload (HD := Citra.headers) Citra.values Citra.fresh).
  vm_compute. reflexivity.
Defined.

Lemma Shutdown_then_Init_witness :
  exists c1,
    Init (HD := Citra.headers) Citra.values Citra.fresh = Some c1
    /\ devices (Shutdown c1) = []
    /\ ReloadSettings (HD := Citra.headers) Citra.values (Shutdown c1)
       = Some (Shutdown c1)
    /\ Init (HD := Citra.headers) Citra.values (Shutdown c1) = Some c1.
Proof.
  eexists. split; [vm_compute; reflexivity|].
  apply (Shutdown_then_Init (HD := Citra.headers) Citra.values Citra.fresh).
  vm_compute. reflexivity.
Defined.

Lemma ParseSettings_devices_witness :
  exists c1,
    ParseSettings (HD := Citra.headers) Citra.values Citra.fresh = Some c1
    /\ NoDup (devices c1)
    /\ forall dev, dev ∈ devices c1
         <-> exists m, configured Citra.values m /\ dev = make_device m.
Proof.
  eexists. split; [vm_compute; reflexivity|].
  apply (ParseSettings_devices (HD := Citra.headers) Citra_eq_device
           Citra_lt_total Citra.values Citra.fresh).
  vm_compute. reflexivity.
Defined.

Lemma DetectInput_result_witness :
  (exists s, (Citra.KeyA, s) ∈ polled_stream 50 Citra.repress
      /\ gtb s (input_detect_threshold (Headers := Citra.headers)) = true)
  \/ (Citra.KeyA = default_mapping (Headers := Citra.headers)
      /\ (timed_out 50 Citra.repress = true
          \/ key (default_mapping (Headers := Citra.headers)) <> EmptyString)).
Proof.
  apply (DetectInput_result (HD := Citra.headers) 50 Citra.baseline
           Citra.repress Citra.KeyA).
  vm_compute. reflexivity.
Defined.

Lemma DetectInput_detects_witness :
  DetectInput (HD := Citra.headers) 50 Citra.baseline Sessions.press_b
  = Some Citra.KeyB.
Proof.
  apply (DetectInput_detects (HD := Citra.headers) 50 Citra.baseline
           Sessions.press_b
           [(Citra.KeyA, one); (Citra.KeyB, zero); (Citra.KeyA, one)] []
           Citra.KeyB one).
  - reflexivity.
  - reflexivity.
  - vm_compute. reflexivity.
  - intros k' s' Hin Hgt.
    assert (forall i, i ∈ [(Citra.KeyA, one); (Citra.KeyB, zero);
                           (Citra.KeyA, one)] ->
              i = (Citra.KeyA, one) \/ i = (Citra.KeyB, zero)) as Hcases.
    { intros i Hi. repeat (apply elem_of_cons in Hi as [->|Hi]; [tauto|]).
      by apply elem_of_nil in Hi. }
    destruct (Hcases _ Hin) as [[= -> ->]|[= -> ->]];
      [|vm_compute in Hgt; discriminate].
    split; [vm_compute; reflexivity|].
    intros s'' Hin'. destruct (Hcases _ Hin') as [[= ->]|[=]].
    vm_compute. reflexivity.
  - left. vm_compute. discriminate.
Defined.


(** ** The tick keeps the pad well formed *)

Section TickPad.

Context `{HD : Headers}.

(** The digital part of a tick is the digital pass, run on a mapping table
    that yields the targets of the table before the tick. *)
Lemma UpdateEmulatorInputs_digital (V : Values) (inputs : list Snapshot)
    (c c' : InputCore) :
  UpdateEmulatorInputs V inputs c = Some c' ->
  exists km,
    (forall k, targets_of km k = targets_of (key_mappings c) k)
    /\ digital_pass inputs (with_map km (digital_of c))
       = Some (digital_of c').
Proof.
  unfold UpdateEmulatorInputs. intros Hu.
  pose proof (analog_pass_targets V inputs (key_mappings c)) as Ht.
  destruct (analog_pass V inputs (key_mappings c)) as [a km].
  cbn [snd] in Ht. destruct (set_circle_pad V a) as [cp|]; [|done].
  simpl in Hu. exists km. split; [done|].
  unfold digital_of at 1, with_map. cbn [d_pad d_keys].
  destruct (digital_pass inputs _) as [d'|]; [|done]. simpl in Hu.
  injection Hu as <-. unfold digital_of.
  cbn [pad_state keys_pressed key_mappings]. by destruct d'.
Qed.

(** X8.  A tick keeps the pad in step with the latch: a target [e] that is
    latched as pressed after the tick has its bits set in the pad, if that
    held before the tick and every target of a sampled input is [e] itself
    or shares no bit with [e]. *)
Theorem UpdateEmulatorInputs_in_step (V : Values) (inputs : list Snapshot)
    (c c' : InputCore) (e : PadState) :
  UpdateEmulatorInputs V inputs c = Some c' ->
  u32 (hex e) ->
  (forall snap b e', snap ∈ inputs -> b ∈ snap ->
     e' ∈ targets_of (key_mappings c) b.1 ->
     e' = e \/ Z.land (hex e) (hex e') = 0) ->
  in_step (digital_of c) e -> in_step (digital_of c') e.
Proof.
  intros Hu He Hdis Hin.
  destruct (UpdateEmulatorInputs_digital V inputs c c' Hu) as (km & Hkm & Hd).
  apply (digital_pass_in_step inputs (with_map km (digital_of c)));
    [done| |done|done].
  intros snap b e' Hsnap Hb He'. cbn [d_map with_map] in He'.
  rewrite Hkm in He'. by apply (Hdis snap b).
Qed.

(** X9.  A tick keeps the pad a 32-bit value, when the targets of the
    sampled inputs are 32-bit values. *)
Theorem UpdateEmulatorInputs_u32 (V : Values) (inputs : list Snapshot)
    (c c' : InputCore) :
  UpdateEmulatorInputs V inputs c = Some c' ->
  u32 (hex (pad_state c)) ->
  (forall snap b e, snap ∈ inputs -> b ∈ snap ->
     e ∈ targets_of (key_mappings c) b.1 -> u32 (hex e)) ->
  u32 (hex (pad_state c')).
Proof.
  intros Hu Hc Ht.
  destruct (UpdateEmulatorInputs_digital V inputs c c' Hu) as (km & Hkm & Hd).
  change (pad_state c') with (d_pad (digital_of c')).
  apply (digital_pass_u32 inputs (with_map km (digital_of c))); [done| |done].
  intros snap b e Hsnap Hb He. cbn [d_map with_map] in He.
  rewrite Hkm in He. by apply (Ht snap b).
Qed.

End TickPad.

Lemma UpdateEmulatorInputs_in_step_witness :
  exists c',
    UpdateEmulatorInputs (HD := Citra.headers) Citra.values
      [[(Citra.KeyA, one); (Citra.KeyB, zero)]] Citra.held = Some c'
    /\ in_step (digital_of c') HID.PAD_A.
Proof.
  eexists. split; [vm_compute; reflexivity|].
  apply (UpdateEmulatorInputs_in_step (HD := Citra.headers) Citra.values
           [[(Citra.KeyA, one); (Citra.KeyB, zero)]] Citra.held).
  - vm_compute. reflexivity.
  - unfold u32. vm_compute. split; [discriminate|reflexivity].
  - intros snap b e' Hsnap Hb He'.
    destruct (Citra_table_targets _ _ _ _ _ Hsnap Hb He') as [-> | ->];
      [by left|by right].
  - intros _. reflexivity.
Defined.

Lemma UpdateEmulatorInputs_u32_witness :
  exists c',
    UpdateEmulatorInputs (HD := Citra.headers) Citra.values
      [[(Citra.KeyA, one); (Citra.KeyB, zero)]] Citra.held = Some c'
    /\ u32 (hex (pad_state c')).
Proof.
  eexists. split; [vm_compute; reflexivity|].
  apply (UpdateEmulatorInputs_u32 (HD := Citra.headers) Citra.values
           [[(Citra.KeyA, one); (Citra.KeyB, zero)]] Citra.held).
  - vm_compute. reflexivity.
  - unfold u32. vm_compute. split; [discriminate|reflexivity].
  - intros snap b e Hsnap Hb He.
    destruct (Citra_table_targets _ _ _ _ _ Hsnap Hb He) as [-> | ->];
      unfold u32; vm_compute; (split; [discriminate|reflexivity]).
Defined.
